(** * discobotmoosic: resolution cache, session manager and playback queue

    A shallow embedding of [utils/music_utils.py], [utils/voice_manager.py]
    and the queue logic of [cogs/music_improved.py], with the properties of
    the design document stated over it.

    Conventions of the embedding:
    - a Python [dict] is a [gmap], a [set] a [gset], a [deque] a [list]
      (head = left end);
    - a Python value that is either [None] or a [str] is an [option string];
      its truthiness is [truthy];
    - a coroutine is cut at its [await] of an external result: the part
      before it is [f_begin], the part after it [f_resume], and each runs
      atomically (asyncio runs one coroutine at a time between awaits);
    - [time.time()] readings are exact rationals, [datetime] values are
      integer microseconds;
    - external collaborators (the process pool, the voice transport, the
      downloader, the chat channel) answer through explicit outcomes. *)

From Stdlib Require Import ZArith QArith Lia Lqa.
From stdpp Require Import gmap strings list fin_maps.

(** ** Python values, exceptions and awaits *)

(** [bool(v)] for [v] being [None] or a [str]. *)
Definition truthy (v : option string) : bool :=
  match v with
  | None => false
  | Some s => bool_decide (s ≠ "")
  end.

(** The exception classes the code distinguishes.  [CancelledError] derives
    from [BaseException]: an [except Exception] clause lets it through. *)
Inductive exn : Type :=
| ConnectionClosed (code : Z)
| ClientException (msg : string)
| TimeoutError
| KeyError (key : string)
| OtherException (msg : string)
| CancelledError.

Definition is_Exception (e : exn) : bool :=
  match e with
  | CancelledError => false
  | _ => true
  end.

(** What a call yields: a value or a raised exception. *)
Inductive outcome (A : Type) : Type :=
| Return (a : A)
| Raise (e : exn).
Arguments Return {A} a.
Arguments Raise {A} e.

(** What the first half of a coroutine yields: it either finished without
    suspending, or it is suspended on work item [wid] of the pool. *)
Inductive started (A : Type) : Type :=
| Finished (r : A)
| Awaiting (wid : nat).
Arguments Finished {A} r.
Arguments Awaiting {A} wid.

#[global] Instance Qlt_dec (a b : Q) : Decision (a < b)%Q.
Proof. destruct (Qlt_le_dec a b) as [H|H]; [left; exact H | right; apply Qle_not_lt, H]. Defined.

(** ** config.py *)

Module Config.
Definition MAX_QUEUE_SIZE : nat := 100.
End Config.

(** ** utils/music_utils.py *)

Module MusicUtils.

(** The descriptor returned by the extractor: a dict from field names to
    strings (a field holding [None] counts as absent). *)
Abbreviation info := (gmap string string).

(** The dicts built by [search_song] and [get_audio_source]; a value may
    be [None]. *)
Abbreviation descriptor := (gmap string (option string)).

(** *** concurrent.futures.ProcessPoolExecutor

    Submitted work waits in a first-in first-out queue and is handed to a
    worker as soon as one is free.  A work item carries what
    [run_in_executor] is given: the query (and the options, which never
    change). *)
Record work_item : Type := WorkItem { w_id : nat; w_query : string }.

#[global] Instance work_item_eq_dec : EqDecision work_item.
Proof. solve_decision. Defined.

Record ProcessPoolExecutor : Type := Pool {
  max_workers : nat;
  pending : list work_item;
  running : list work_item;
  submitted_log : list work_item;
  started_log : list work_item;
  next_work_id : nat;
}.

Definition new_pool (workers : nat) : ProcessPoolExecutor :=
  Pool workers [] [] [] [] 0.

(** Hands queued work to free workers, oldest first. *)
Fixpoint dispatch (free : nat) (pend run log : list work_item)
  : list work_item * list work_item * list work_item :=
  match free, pend with
  | S free', w :: pend' => dispatch free' pend' (run ++ [w]) (log ++ [w])
  | _, _ => (pend, run, log)
  end.

Definition pool_dispatch (p : ProcessPoolExecutor) : ProcessPoolExecutor :=
  let '(pend, run, log) :=
    dispatch (max_workers p - length (running p))
             (pending p) (running p) (started_log p) in
  Pool (max_workers p) pend run (submitted_log p) log (next_work_id p).

(** [submit]: the new item goes to the back of the queue. *)
Definition pool_submit (p : ProcessPoolExecutor) (query : string)
  : nat * ProcessPoolExecutor :=
  let w := WorkItem (next_work_id p) query in
  (next_work_id p,
   pool_dispatch (Pool (max_workers p) (pending p ++ [w]) (running p)
                       (submitted_log p ++ [w]) (started_log p)
                       (S (next_work_id p)))).

(** A work item leaves the pool: its worker finished, or it was cancelled
    while still queued. *)
Definition pool_complete (p : ProcessPoolExecutor) (wid : nat)
  : ProcessPoolExecutor :=
  let keep := filter (λ w, w_id w ≠ wid) in
  pool_dispatch (Pool (max_workers p) (keep (pending p)) (keep (running p))
                      (submitted_log p) (started_log p) (next_work_id p)).

(** *** class YTDLSource *)

Definition cache_duration : Q := 3600.

Record YTDLSource : Type := MkYTDL {
  process_pool : ProcessPoolExecutor;
  download_queue : list (Z * string);
  url_cache : gmap string string;
  cache_expiry : gmap string Q;
  download_in_progress : gset string;
}.

(** [YTDLSource.__init__] *)
Definition new_YTDLSource (workers : nat) : YTDLSource :=
  MkYTDL (new_pool workers) [] ∅ ∅ ∅.

Definition set_process_pool (self : YTDLSource) p : YTDLSource :=
  MkYTDL p (download_queue self) (url_cache self) (cache_expiry self)
         (download_in_progress self).
Definition set_download_in_progress (self : YTDLSource) s : YTDLSource :=
  MkYTDL (process_pool self) (download_queue self) (url_cache self)
         (cache_expiry self) s.

(** [YTDLSource.get_cached_url] *)
Definition get_cached_url (self : YTDLSource) (now : Q) (query : string)
  : option string :=
  match url_cache self !! query with
  | Some url =>
      if bool_decide (now < default 0%Q (cache_expiry self !! query))%Q
      then Some url else None
  | None => None
  end.

(** [get_cached_url] contains no assignment: a read hands back the object
    as it found it. *)
Definition read_cached_url (self : YTDLSource) (now : Q) (query : string)
  : option string * YTDLSource :=
  (get_cached_url self now query, self).

(** The two assignments of [extract_info] that fill the cache. *)
Definition cache_put (self : YTDLSource) (now : Q) (query url : string)
  : YTDLSource :=
  MkYTDL (process_pool self) (download_queue self)
         (<[query := url]> (url_cache self))
         (<[query := (now + cache_duration)%Q]> (cache_expiry self))
         (download_in_progress self).

(** [YTDLSource.extract_info], up to its [await]: [None] is the early
    [return None], [Some wid] the work item the coroutine now awaits. *)
Definition extract_info_begin (self : YTDLSource) (query : string)
    (download : bool) (priority : Z) : option nat * YTDLSource :=
  if bool_decide (query ∈ download_in_progress self) then (None, self)
  else
    let self1 :=
      set_download_in_progress self ({[query]} ∪ download_in_progress self) in
    let '(wid, pool) := pool_submit (process_pool self1) query in
    (Some wid, set_process_pool self1 pool).

(** [YTDLSource.extract_info], from its [await] on.  [res] is what the
    await produced: the value of [extract_info_sync], or an exception
    (broken pool, timeout or cancellation of the awaiting task). *)
Definition extract_info_resume (self : YTDLSource) (now : Q)
    (query : string) (res : outcome (option info))
  : outcome (option info) * YTDLSource :=
  let self1 :=
    match res with
    | Return (Some i) =>
        match i !! "url" with
        | Some url => cache_put self now query url
        | None => self
        end
    | _ => self
    end in
  (res, set_download_in_progress self1 (download_in_progress self1 ∖ {[query]})).

(** The song dict built by [search_song]: always the same four keys. *)
Record song : Type := Song {
  webpage_url : string;
  title : string;
  thumbnail : option string;
  url : option string;
}.

#[global] Instance song_eq_dec : EqDecision song.
Proof. solve_decision. Defined.

(** [YTDLSource.search_song], up to the [await] inside [extract_info]. *)
Definition search_song_begin (self : YTDLSource) (search_query : string)
    (priority : Z) : started (option song) * YTDLSource :=
  match extract_info_begin self ("ytsearch1:" ++ search_query) false priority with
  | (None, self') => (Finished None, self')
  | (Some wid, self') => (Awaiting wid, self')
  end.

(** [YTDLSource.search_song], from the [await] on.  A missing
    ['webpage_url'] or ['title'] raises [KeyError], which the
    [except Exception] turns into [None]. *)
Definition search_song_resume (self : YTDLSource) (now : Q)
    (search_query : string) (res : outcome (option info))
  : outcome (option song) * YTDLSource :=
  let '(r, self') :=
    extract_info_resume self now ("ytsearch1:" ++ search_query) res in
  (match r with
   | Return (Some i) =>
       if bool_decide (i ≠ ∅) then
         match i !! "webpage_url", i !! "title" with
         | Some w, Some t => Return (Some (Song w t (i !! "thumbnail") (i !! "url")))
         | _, _ => Return None
         end
       else Return None
   | Return None => Return None
   | Raise e => if is_Exception e then Return None else Raise e
   end, self').

(** The dict literal of the cache-hit branch of [get_audio_source]. *)
Definition cached_descriptor (cached_url url : string) : descriptor :=
  {[ "url" := Some cached_url; "title" := Some "Unknown";
     "webpage_url" := Some url ]}.

(** The dict literal of the extraction branch of [get_audio_source]. *)
Definition extracted_descriptor (i : info) (url : string) : descriptor :=
  {[ "url" := i !! "url";
     "title" := Some (default "Unknown" (i !! "title"));
     "thumbnail" := i !! "thumbnail";
     "webpage_url" := Some (default url (i !! "webpage_url")) ]}.

(** [YTDLSource.get_audio_source], up to the [await]. *)
Definition get_audio_source_begin (self : YTDLSource) (now : Q) (url : string)
    (priority : Z) : started (option descriptor) * YTDLSource :=
  let cached_url := get_cached_url self now url in
  if truthy cached_url then
    (Finished (Some (cached_descriptor (default "" cached_url) url)), self)
  else
    match extract_info_begin self url false priority with
    | (None, self') => (Finished None, self')
    | (Some wid, self') => (Awaiting wid, self')
    end.

(** [YTDLSource.get_audio_source], from the [await] on. *)
Definition get_audio_source_resume (self : YTDLSource) (now : Q) (url : string)
    (res : outcome (option info)) : outcome (option descriptor) * YTDLSource :=
  let '(r, self') := extract_info_resume self now url res in
  (match r with
   | Return (Some i) =>
       if bool_decide (i ≠ ∅) then Return (Some (extracted_descriptor i url))
       else Return None
   | Return None => Return None
   | Raise e => if is_Exception e then Return None else Raise e
   end, self').

(** [YTDLSource.prefetch_song]: always asks with priority 10. *)
Definition prefetch_song_begin (self : YTDLSource) (url : string)
  : started bool * YTDLSource :=
  match extract_info_begin self url false 10 with
  | (None, self') => (Finished true, self')
  | (Some wid, self') => (Awaiting wid, self')
  end.

Definition prefetch_song_resume (self : YTDLSource) (now : Q) (url : string)
    (res : outcome (option info)) : outcome bool * YTDLSource :=
  let '(r, self') := extract_info_resume self now url res in
  (match r with
   | Return _ => Return true
   | Raise e => if is_Exception e then Return false else Raise e
   end, self').

(** *** Concurrent use of one [YTDLSource]

    Coroutines call [extract_info] and are resumed in any order.  A
    suspended call is identified by the work item it awaits; that item
    leaves the pool when its call is resumed. *)
Record Engine : Type := MkEngine {
  source : YTDLSource;
  suspended : list (nat * string);
}.

Inductive engine_event : Type :=
| CallExtract (query : string) (priority : Z)
| ResumeExtract (wid : nat) (now : Q) (res : outcome (option info)).

Definition new_engine (workers : nat) : Engine :=
  MkEngine (new_YTDLSource workers) [].

Definition engine_step (e : Engine) (ev : engine_event) : Engine :=
  match ev with
  | CallExtract query priority =>
      match extract_info_begin (source e) query false priority with
      | (Some wid, y) => MkEngine y (suspended e ++ [(wid, query)])
      | (None, y) => MkEngine y (suspended e)
      end
  | ResumeExtract wid now res =>
      match List.find (λ c, bool_decide (fst c = wid)) (suspended e) with
      | Some (_, query) =>
          let y :=
            set_process_pool (source e)
              (pool_complete (process_pool (source e)) wid) in
          MkEngine (snd (extract_info_resume y now query res))
                   (filter (λ c, fst c ≠ wid) (suspended e))
      | None => e
      end
  end.

Definition engine_run (e : Engine) (evs : list engine_event) : Engine :=
  foldl engine_step e evs.

(** The queries for which extraction work was handed to the pool. *)
Definition extraction_calls (y : YTDLSource) : list string :=
  w_query <$> submitted_log (process_pool y).


(** Among the work items started so far, [q1] was started, and no item for
    [q2] was started before it. *)
Definition started_before (p : ProcessPoolExecutor) (q1 q2 : string) : Prop :=
  ∃ i w, started_log p !! i = Some w ∧ w_query w = q1 ∧
         ∀ j w', started_log p !! j = Some w' → w_query w' = q2 → (i < j)%nat.


(** Work is numbered in the order of submission, and what has been started
    or still waits is, in that order, part of what was submitted. *)
Definition pool_fifo (p : ProcessPoolExecutor) : Prop :=
  w_id <$> submitted_log p = seq 0 (next_work_id p) ∧
  (started_log p ++ pending p) `sublist_of` submitted_log p.

End MusicUtils.

(** ** utils/voice_manager.py *)

Module VoiceManager.

Local Open Scope Z_scope.

(** [str.lower()] on ASCII text and the [in] test on strings, for
    ["already connected" in str(e).lower()]. *)
Definition lower_ascii (c : Ascii.ascii) : Ascii.ascii :=
  let n := Ascii.nat_of_ascii c in
  if (65 <=? n)%nat && (n <=? 90)%nat then Ascii.ascii_of_nat (n + 32) else c.

Fixpoint lower (s : string) : string :=
  match s with
  | EmptyString => EmptyString
  | String c s' => String (lower_ascii c) (lower s')
  end.

Fixpoint contains (needle hay : string) : bool :=
  String.prefix needle hay ||
  match hay with
  | EmptyString => false
  | String _ hay' => contains needle hay'
  end.

(** What the manager observes of a [discord.VoiceClient]. *)
Record VoiceClient : Type := MkVoiceClient {
  vc_id : nat;
  vc_guild : Z;
  vc_is_connected : bool;
  vc_attrs_ok : bool;
  vc_ws : bool;
  vc_disconnect_error : option exn;
}.

#[global] Instance exn_eq_dec : EqDecision exn.
Proof. solve_decision. Defined.

#[global] Instance VoiceClient_eq_dec : EqDecision VoiceClient.
Proof. solve_decision. Defined.

Record VoiceChannel : Type := MkChannel { ch_id : Z; ch_guild : Z }.

(** The three per-guild background loops. *)
Inductive timer_kind : Type := SessionRefresh | Keepalive | Inactivity.

#[global] Instance timer_kind_eq_dec : EqDecision timer_kind.
Proof. solve_decision. Defined.

(** The asyncio event loop: the tasks that are still alive, by handle. *)
Record EventLoop : Type := MkLoop {
  live_tasks : gmap nat (timer_kind * Z);
  next_task : nat;
}.

Definition create_task (l : EventLoop) (k : timer_kind) (guild_id : Z)
  : nat * EventLoop :=
  (next_task l,
   MkLoop (<[next_task l := (k, guild_id)]> (live_tasks l)) (S (next_task l))).

(** [task.cancel()]; nothing happens when the task is already done. *)
Definition cancel_task (l : EventLoop) (t : nat) : EventLoop :=
  MkLoop (delete t (live_tasks l)) (next_task l).

(** The call sites of [asyncio.sleep]. *)
Inductive sleep_site : Type :=
| CleanupWait | Backoff | Settle | InvalidSessionWait.

(** Operations on the voice transport and suspensions, as they happen. *)
Inductive event : Type :=
| EvSleep (site : sleep_site) (seconds : Z)
| EvConnect (channel : VoiceChannel) (attempt : nat)
| EvDisconnect (vc : nat) (force : bool)
| EvMoveTo (vc : nat) (channel : VoiceChannel).

(** Everything outside the manager: [bot.voice_clients], the event loop,
    the wall clock (microseconds) and the log of events. *)
Record World : Type := MkWorld {
  voice_clients : list VoiceClient;
  loop : EventLoop;
  clock : Z;
  trace : list event;
}.

Definition set_voice_clients (w : World) vcs : World :=
  MkWorld vcs (loop w) (clock w) (trace w).
Definition set_loop (w : World) l : World :=
  MkWorld (voice_clients w) l (clock w) (trace w).
Definition emit (w : World) (e : event) : World :=
  MkWorld (voice_clients w) (loop w) (clock w) (trace w ++ [e]).

(** [await asyncio.sleep(seconds)] *)
Definition sleep (w : World) (site : sleep_site) (seconds : Z) : World :=
  MkWorld (voice_clients w) (loop w) (clock w + seconds * 1000000)
          (trace w ++ [EvSleep site seconds]).

(** [await vc.disconnect(force=...)]: on success the client leaves
    [bot.voice_clients]; otherwise the error is handed back. *)
Definition vc_disconnect (w : World) (vc : VoiceClient) (force : bool)
  : option exn * World :=
  let w1 := emit w (EvDisconnect (vc_id vc) force) in
  match vc_disconnect_error vc with
  | Some e => (Some e, w1)
  | None =>
      (None, set_voice_clients w1
               (filter (λ v, vc_id v ≠ vc_id vc) (voice_clients w1)))
  end.

Record VoiceConnectionManager : Type := MkManager {
  _connections : gmap Z VoiceClient;
  _connection_attempts : gmap Z Z;
  _connection_locks : gset Z;
  _cleanup_tasks : gmap Z nat;
  _keepalive_tasks : gmap Z nat;
  _inactivity_tasks : gmap Z nat;
}.

Definition _session_refresh_interval : Z := 3600.
Definition _inactivity_timeout : Z := 600.

(** [VoiceConnectionManager.__init__] *)
Definition new_manager : VoiceConnectionManager := MkManager ∅ ∅ ∅ ∅ ∅ ∅.

Definition set_connections (m : VoiceConnectionManager) c :=
  MkManager c (_connection_attempts m) (_connection_locks m)
            (_cleanup_tasks m) (_keepalive_tasks m) (_inactivity_tasks m).
Definition set_connection_attempts (m : VoiceConnectionManager) a :=
  MkManager (_connections m) a (_connection_locks m)
            (_cleanup_tasks m) (_keepalive_tasks m) (_inactivity_tasks m).
Definition set_connection_locks (m : VoiceConnectionManager) l :=
  MkManager (_connections m) (_connection_attempts m) l
            (_cleanup_tasks m) (_keepalive_tasks m) (_inactivity_tasks m).

(** The dict that holds the task handles of one kind. *)
Definition tasks_of (k : timer_kind) (m : VoiceConnectionManager)
  : gmap Z nat :=
  match k with
  | SessionRefresh => _cleanup_tasks m
  | Keepalive => _keepalive_tasks m
  | Inactivity => _inactivity_tasks m
  end.

Definition set_tasks_of (k : timer_kind) (m : VoiceConnectionManager)
    (d : gmap Z nat) : VoiceConnectionManager :=
  match k with
  | SessionRefresh =>
      MkManager (_connections m) (_connection_attempts m) (_connection_locks m)
                d (_keepalive_tasks m) (_inactivity_tasks m)
  | Keepalive =>
      MkManager (_connections m) (_connection_attempts m) (_connection_locks m)
                (_cleanup_tasks m) d (_inactivity_tasks m)
  | Inactivity =>
      MkManager (_connections m) (_connection_attempts m) (_connection_locks m)
                (_cleanup_tasks m) (_keepalive_tasks m) d
  end.

(** [get_lock]: creates the guild's lock on first use. *)
Definition get_lock (m : VoiceConnectionManager) (guild_id : Z)
  : VoiceConnectionManager :=
  if bool_decide (guild_id ∈ _connection_locks m) then m
  else set_connection_locks m ({[guild_id]} ∪ _connection_locks m).

(** [if guild_id in d: d[guild_id].cancel(); del d[guild_id]] *)
Definition cancel_and_forget (k : timer_kind) (guild_id : Z)
    (mw : VoiceConnectionManager * EventLoop)
  : VoiceConnectionManager * EventLoop :=
  let '(m, l) := mw in
  match tasks_of k m !! guild_id with
  | Some t => (set_tasks_of k m (delete guild_id (tasks_of k m)), cancel_task l t)
  | None => (m, l)
  end.

(** [if guild_id in d: d[guild_id].cancel()] followed by
    [d[guild_id] = asyncio.create_task(...)] *)
Definition restart_timer (k : timer_kind) (guild_id : Z)
    (mw : VoiceConnectionManager * EventLoop)
  : VoiceConnectionManager * EventLoop :=
  let '(m, l) := mw in
  let l1 :=
    match tasks_of k m !! guild_id with
    | Some t => cancel_task l t
    | None => l
    end in
  let '(t', l2) := create_task l1 k guild_id in
  (set_tasks_of k m (<[guild_id := t']> (tasks_of k m)), l2).

(** The force-disconnect loop of [cleanup_stale_connection]; a failing
    disconnect is logged and the loop goes on. *)
Fixpoint disconnect_stale (vcs : list VoiceClient) (guild_id : Z) (w : World)
  : World :=
  match vcs with
  | [] => w
  | vc :: vcs' =>
      if bool_decide (vc_guild vc = guild_id)
      then disconnect_stale vcs' guild_id (snd (vc_disconnect w vc true))
      else disconnect_stale vcs' guild_id w
  end.

(** The bookkeeping part of [cleanup_stale_connection]: no [await] occurs
    between its statements. *)
Definition forget_connection (m : VoiceConnectionManager) (l : EventLoop)
    (guild_id : Z) : VoiceConnectionManager * EventLoop :=
  let m1 := set_connections m (delete guild_id (_connections m)) in
  cancel_and_forget Inactivity guild_id
    (cancel_and_forget Keepalive guild_id
       (cancel_and_forget SessionRefresh guild_id (m1, l))).

(** [cleanup_stale_connection] *)
Definition cleanup_stale_connection (m : VoiceConnectionManager) (w : World)
    (guild_id : Z) : VoiceConnectionManager * World :=
  let w1 := disconnect_stale (voice_clients w) guild_id w in
  let '(m2, l2) := forget_connection m (loop w1) guild_id in
  (m2, sleep (set_loop w1 l2) CleanupWait 2).

(** [should_retry_connection]; the cooldown is [timedelta(seconds=10)]. *)
Definition should_retry_connection (m : VoiceConnectionManager) (now : Z)
    (guild_id : Z) : bool :=
  match _connection_attempts m !! guild_id with
  | None => true
  | Some last_attempt => bool_decide (now - last_attempt > 10 * 1000000)
  end.

(** [validate_session] *)
Definition validate_session (voice_client : option VoiceClient) : bool :=
  match voice_client with
  | None => false
  | Some vc => vc_is_connected vc && vc_attrs_ok vc && vc_ws vc
  end.

(** The timers started by a successful attempt; no [await] occurs between
    these statements. *)
Definition start_session_timers (m : VoiceConnectionManager) (l : EventLoop)
    (guild_id : Z) : VoiceConnectionManager * EventLoop :=
  restart_timer Keepalive guild_id
    (restart_timer SessionRefresh guild_id (m, l)).

(** [min(backoff_base ** attempt, 30)] *)
Definition backoff_time (backoff_base : Z) (attempt : nat) : Z :=
  Z.min (backoff_base ^ Z.of_nat attempt) 30.

(** The delay slept before attempt number [attempt] (counted from 0), if
    any: [if attempt > 0: ... await asyncio.sleep(backoff_time)]. *)
Definition backoff_before (backoff_base : Z) (attempt : nat) : option Z :=
  if bool_decide (0 < attempt)%nat then Some (backoff_time backoff_base attempt)
  else None.

(** [channel.connect(...)], as the environment answers it on attempt
    number [n] given the bot's current voice clients: the call's outcome
    and the bot's voice clients afterwards. *)
Abbreviation Transport :=
  (nat → list VoiceClient → outcome VoiceClient * list VoiceClient).

(** How one pass through the [for attempt in range(max_retries)] body
    ends. *)
Inductive attempt_result : Type :=
| AttemptReturn (vc : VoiceClient)
| AttemptContinue
| AttemptRaise (e : exn).

(** The [except] clauses of the attempt, in their order. *)
Definition handle_connect_error (m : VoiceConnectionManager) (w : World)
    (guild_id : Z) (attempt max_retries : nat) (e : exn)
  : attempt_result * VoiceConnectionManager * World :=
  match e with
  | ConnectionClosed code =>
      if bool_decide (code = 4006) then
        if bool_decide (Z.of_nat attempt < Z.of_nat max_retries - 1)
        then (AttemptContinue, m, sleep w InvalidSessionWait 15)
        else (AttemptContinue, m, w)
      else (AttemptContinue, m, w)
  | ClientException msg =>
      if contains "already connected" (lower msg) then
        match List.find (λ vc, bool_decide (vc_guild vc = guild_id))
                        (voice_clients w) with
        | Some vc =>
            if validate_session (Some vc) then
              (AttemptReturn vc,
               set_connections m (<[guild_id := vc]> (_connections m)), w)
            else
              let '(m', w') := cleanup_stale_connection m w guild_id in
              (AttemptContinue, m', w')
        | None => (AttemptContinue, m, w)
        end
      else (AttemptContinue, m, w)
  | CancelledError => (AttemptRaise CancelledError, m, w)
  | TimeoutError | KeyError _ | OtherException _ => (AttemptContinue, m, w)
  end.

(** The body of the retry loop of [connect_with_retry]. *)
Definition connect_attempt (transport : Transport) (channel : VoiceChannel)
    (max_retries : nat) (backoff_base : Z) (attempt : nat)
    (m : VoiceConnectionManager) (w : World)
  : attempt_result * VoiceConnectionManager * World :=
  let guild_id := ch_guild channel in
  let m1 :=
    set_connection_attempts m
      (<[guild_id := clock w]> (_connection_attempts m)) in
  let w1 :=
    match backoff_before backoff_base attempt with
    | Some backoff => sleep w Backoff backoff
    | None => w
    end in
  let w2 := emit w1 (EvConnect channel attempt) in
  let '(res, vcs) := transport attempt (voice_clients w2) in
  let w3 := set_voice_clients w2 vcs in
  match res with
  | Return voice_client =>
      let w4 := sleep w3 Settle 1 in
      if validate_session (Some voice_client) then
        let m2 :=
          set_connections m1 (<[guild_id := voice_client]> (_connections m1)) in
        let '(m3, l3) := start_session_timers m2 (loop w4) guild_id in
        (AttemptReturn voice_client, m3, set_loop w4 l3)
      else
        match vc_disconnect w4 voice_client true with
        | (Some e, w5) => handle_connect_error m1 w5 guild_id attempt max_retries e
        | (None, w5) => (AttemptContinue, m1, w5)
        end
  | Raise e => handle_connect_error m1 w3 guild_id attempt max_retries e
  end.

(** [for attempt in range(max_retries)], then the final [return None]. *)
Fixpoint retry_loop (transport : Transport) (channel : VoiceChannel)
    (max_retries : nat) (backoff_base : Z) (remaining attempt : nat)
    (m : VoiceConnectionManager) (w : World)
  : outcome (option VoiceClient) * VoiceConnectionManager * World :=
  match remaining with
  | O => (Return None, m, w)
  | S remaining' =>
      match connect_attempt transport channel max_retries backoff_base
                            attempt m w with
      | (AttemptReturn vc, m', w') => (Return (Some vc), m', w')
      | (AttemptRaise e, m', w') => (Raise e, m', w')
      | (AttemptContinue, m', w') =>
          retry_loop transport channel max_retries backoff_base
                     remaining' (S attempt) m' w'
      end
  end.

(** [connect_with_retry] *)
Definition connect_with_retry (transport : Transport)
    (m : VoiceConnectionManager) (w : World) (channel : VoiceChannel)
    (max_retries : nat) (backoff_base : Z)
  : outcome (option VoiceClient) * VoiceConnectionManager * World :=
  let guild_id := ch_guild channel in
  let m0 := get_lock m guild_id in
  if negb (should_retry_connection m0 (clock w) guild_id) then
    (Return None, m0, w)
  else
    let '(m1, w1) := cleanup_stale_connection m0 w guild_id in
    retry_loop transport channel max_retries backoff_base max_retries 0 m1 w1.

(** The defaults of the signature: [max_retries=3, backoff_base=2.0]. *)
Definition default_max_retries : nat := 3.
Definition default_backoff_base : Z := 2.

(** [start_inactivity_timer] *)
Definition start_inactivity_timer (m : VoiceConnectionManager) (l : EventLoop)
    (guild_id : Z) : VoiceConnectionManager * EventLoop :=
  restart_timer Inactivity guild_id (m, l).

(** [cancel_inactivity_timer] *)
Definition cancel_inactivity_timer (m : VoiceConnectionManager) (l : EventLoop)
    (guild_id : Z) : VoiceConnectionManager * EventLoop :=
  cancel_and_forget Inactivity guild_id (m, l).

(** [disconnect] *)
Definition disconnect (m : VoiceConnectionManager) (w : World) (guild_id : Z)
  : VoiceConnectionManager * World :=
  let m0 := get_lock m guild_id in
  let w1 :=
    match _connections m0 !! guild_id with
    | Some vc => snd (vc_disconnect w vc false)
    | None => w
    end in
  cleanup_stale_connection m0 w1 guild_id.


(** [move_to]; [move_error] is what [voice_client.move_to(channel)] raises,
    if anything. *)
Definition move_to (transport : Transport) (move_error : option exn)
    (m : VoiceConnectionManager) (w : World) (guild_id : Z)
    (channel : VoiceChannel)
  : outcome (option VoiceClient) * VoiceConnectionManager * World :=
  let fresh m' w' :=
    connect_with_retry transport m' w' channel
                       default_max_retries default_backoff_base in
  match _connections m !! guild_id with
  | Some vc =>
      if validate_session (Some vc) then
        let w1 := emit w (EvMoveTo (vc_id vc) channel) in
        match move_error with
        | None => (Return (Some vc), m, w1)
        | Some e =>
            if is_Exception e then
              let '(m2, w2) := cleanup_stale_connection m w1 guild_id in
              fresh m2 w2
            else (Raise e, m, w1)
        end
      else fresh m w
  | None => fresh m w
  end.

(** A timer task ends by itself (its loop exits or its body returns). *)
Definition task_exit (l : EventLoop) (t : nat) : EventLoop := cancel_task l t.

(** *** Observations on runs of the manager *)





(** Every live timer task is the one its kind's dict holds for its guild. *)
Definition timers_tracked (m : VoiceConnectionManager) (l : EventLoop) : Prop :=
  ∀ t k g, live_tasks l !! t = Some (k, g) → tasks_of k m !! g = Some t.

(** Task handles are handed out in increasing order. *)
Definition loop_fresh (l : EventLoop) : Prop :=
  ∀ t, is_Some (live_tasks l !! t) → (t < next_task l)%nat.

(** Every handle stored in a timer dict was handed out by the loop. *)
Definition handles_issued (m : VoiceConnectionManager) (l : EventLoop) : Prop :=
  ∀ k g t, tasks_of k m !! g = Some t → (t < next_task l)%nat.

(** The invariant of the timer bookkeeping. *)
Definition tracked (ml : VoiceConnectionManager * EventLoop) : Prop :=
  timers_tracked (fst ml) (snd ml) ∧ loop_fresh (snd ml) ∧
  handles_issued (fst ml) (snd ml).

(** What can happen to a manager and its world: the public operations, run
    against any transport, the cleanup a refresh task may trigger, and a
    timer task ending by itself. *)
Inductive manager_step
  : VoiceConnectionManager * World → VoiceConnectionManager * World → Prop :=
| step_connect transport m w channel max_retries backoff_base r m' w' :
    connect_with_retry transport m w channel max_retries backoff_base
    = (r, m', w') →
    manager_step (m, w) (m', w')
| step_move_to transport move_error m w guild_id channel r m' w' :
    move_to transport move_error m w guild_id channel = (r, m', w') →
    manager_step (m, w) (m', w')
| step_disconnect m w guild_id :
    manager_step (m, w) (disconnect m w guild_id)
| step_cleanup m w guild_id :
    manager_step (m, w) (cleanup_stale_connection m w guild_id)
| step_start_inactivity m w guild_id m' l' :
    start_inactivity_timer m (loop w) guild_id = (m', l') →
    manager_step (m, w) (m', set_loop w l')
| step_cancel_inactivity m w guild_id m' l' :
    cancel_inactivity_timer m (loop w) guild_id = (m', l') →
    manager_step (m, w) (m', set_loop w l')
| step_task_exit m w t :
    manager_step (m, w) (m, set_loop w (task_exit (loop w) t)).

(** A run starts with a fresh manager and no task alive. *)
Definition manager_reachable (m : VoiceConnectionManager) (w : World) : Prop :=
  ∃ w0, live_tasks (loop w0) = ∅ ∧ rtc manager_step (new_manager, w0) (m, w).

(** *** [_inactivity_disconnect_task], from the end of its sleep on *)




End VoiceManager.

(** ** cogs/music_improved.py *)

Module MusicImproved.

Import MusicUtils VoiceManager.

(** [deque.append] on a deque created with [maxlen]: the item is appended
    and, if the deque then exceeds [maxlen], the leftmost item is
    discarded. *)
Definition deque_append {A} (maxlen : nat) (q : list A) (x : A) : list A :=
  let q' := q ++ [x] in
  if bool_decide (length q' ≤ maxlen) then q' else drop 1 q'.

(** [class VoiceState] *)
Record VoiceState : Type := MkVoiceState {
  voice_client : option VoiceClient;
  current_song : option song;
  queue : list song;
  volume : Q;
  ytdl : YTDLSource;
  processing_queue : list string;
  processing : bool;
  last_error : option exn;
  is_connecting : bool;
}.

Definition DEFAULT_VOLUME : Q := 0.5.

(** [VoiceState.__init__] *)
Definition new_VoiceState : VoiceState :=
  MkVoiceState None None [] DEFAULT_VOLUME (new_YTDLSource 4) [] false None
               false.

Definition set_queue (s : VoiceState) q : VoiceState :=
  MkVoiceState (voice_client s) (current_song s) q (volume s) (ytdl s)
               (processing_queue s) (processing s) (last_error s)
               (is_connecting s).
Definition set_ytdl (s : VoiceState) y : VoiceState :=
  MkVoiceState (voice_client s) (current_song s) (queue s) (volume s) y
               (processing_queue s) (processing s) (last_error s)
               (is_connecting s).
Definition set_current_song (s : VoiceState) c : VoiceState :=
  MkVoiceState (voice_client s) c (queue s) (volume s) (ytdl s)
               (processing_queue s) (processing s) (last_error s)
               (is_connecting s).
Definition set_last_error (s : VoiceState) e : VoiceState :=
  MkVoiceState (voice_client s) (current_song s) (queue s) (volume s) (ytdl s)
               (processing_queue s) (processing s) e (is_connecting s).
Definition set_processing (s : VoiceState) b : VoiceState :=
  MkVoiceState (voice_client s) (current_song s) (queue s) (volume s) (ytdl s)
               (processing_queue s) b (last_error s) (is_connecting s).
Definition set_processing_queue (s : VoiceState) pq : VoiceState :=
  MkVoiceState (voice_client s) (current_song s) (queue s) (volume s) (ytdl s)
               pq (processing s) (last_error s) (is_connecting s).

(** An audio source handed to [voice_client.play]. *)
Inductive audio_source : Type :=
| Streamed (stream_url : string)
| Downloaded (page_url : string).

(** What the cog does towards the outside, in order. *)
Inductive output : Type :=
| SpawnPrefetch
| PlaySource (src : audio_source) (s : song)
| SendNowPlaying (s : song)
| SendCouldNotPlay (s : song) (e : exn)
| FollowupPlaying (s : song)
| FollowupAdded (s : song)
| FollowupNotFound
| FollowupError.

(** The collaborators' answers during one call. *)
Record Env : Type := MkEnv {
  now : Q;
  extract : string → outcome (option info);
  ffmpeg : string → option exn;
  download : string → option exn;
  play : song → option exn;
  send : output → option exn;
  playing_at_request : bool;
  playing_at_enqueue : bool;
}.

(** The cog's view of one guild: its [VoiceState], the voice manager, the
    event loop and what has been sent so far. *)
Record Cog : Type := MkCog {
  state : VoiceState;
  voice_manager : VoiceConnectionManager;
  evloop : EventLoop;
  outputs : list output;
}.

Definition set_state (c : Cog) s : Cog :=
  MkCog s (voice_manager c) (evloop c) (outputs c).
Definition set_manager (c : Cog) (ml : VoiceConnectionManager * EventLoop)
  : Cog :=
  MkCog (state c) (fst ml) (snd ml) (outputs c).
Definition say (c : Cog) (o : output) : Cog :=
  MkCog (state c) (voice_manager c) (evloop c) (outputs c ++ [o]).

(** [VoiceState.is_playing]; [playing] is the transport's answer to
    [voice_client.is_playing()]. *)
Definition is_playing (s : VoiceState) (playing : bool) : bool :=
  match voice_client s with
  | Some _ => playing
  | None => false
  end.

(** [await state.ytdl.get_audio_source(url, priority)] run to completion:
    when it suspends, the awaited work item leaves the pool and the
    coroutine resumes with the extractor's answer. *)
Definition get_audio_source (env : Env) (self : YTDLSource) (url : string)
    (priority : Z) : outcome (option descriptor) * YTDLSource :=
  match get_audio_source_begin self (now env) url priority with
  | (Finished r, self') => (Return r, self')
  | (Awaiting wid, self') =>
      get_audio_source_resume
        (set_process_pool self' (pool_complete (process_pool self') wid))
        (now env) url (extract env url)
  end.

(** [await state.ytdl.search_song(query, priority)] run to completion. *)
Definition search_song (env : Env) (self : YTDLSource) (query : string)
    (priority : Z) : outcome (option song) * YTDLSource :=
  match search_song_begin self query priority with
  | (Finished r, self') => (Return r, self')
  | (Awaiting wid, self') =>
      search_song_resume
        (set_process_pool self' (pool_complete (process_pool self') wid))
        (now env) query (extract env ("ytsearch1:" ++ query))
  end.

(** The urls for which [prefetch_next_songs] spawns a [prefetch_song]
    task: those of the first three queue entries that are not cached. *)
Definition prefetch_next_songs (s : VoiceState) (now : Q) : list string :=
  webpage_url <$>
    filter (λ sg, truthy (get_cached_url (ytdl s) now (webpage_url sg)) = false)
           (take 3 (queue s)).

(** [info.get('url')] on what [get_audio_source] returned. *)
Definition descriptor_url (i : option descriptor) : option string :=
  match i with
  | Some d => default None (d !! "url")
  | None => None
  end.

(** The streaming attempt and the download fallback of [play_next]: the
    source to play, or the exception that leaves the inner [try]. *)
Definition make_source (env : Env) (next_song : song)
    (i : outcome (option descriptor)) : outcome audio_source :=
  let fallback :=
    match download env (webpage_url next_song) with
    | None => Return (Downloaded (webpage_url next_song))
    | Some e =>
        if is_Exception e
        then Raise (OtherException "Both streaming and downloading failed")
        else Raise e
    end in
  match i with
  | Return d =>
      match descriptor_url d with
      | Some stream_url =>
          if truthy (Some stream_url) then
            match ffmpeg env stream_url with
            | None => Return (Streamed stream_url)
            | Some e => if is_Exception e then fallback else Raise e
            end
          else fallback
      | None => fallback
      end
  | Raise e => if is_Exception e then fallback else Raise e
  end.

(** [info['url']] in the log line before [voice_client.play]: it raises
    when the streaming attempt left no dict, or one without ['url']. *)
Definition audio_url_log (i : outcome (option descriptor)) : option exn :=
  match i with
  | Return (Some d) =>
      match d !! "url" with
      | Some _ => None
      | None => Some (KeyError "url")
      end
  | Return None => Some (OtherException "'NoneType' object is not subscriptable")
  | Raise _ => Some (OtherException "local variable 'info' referenced before assignment")
  end.

(** How one activation of [play_next] ends: it returns or raises, or it
    reaches its recursive call [await self.play_next(ctx)]. *)
Inductive step_result : Type :=
| Done (r : outcome unit) (c : Cog)
| Again (c : Cog).

(** The body of [play_next] up to its recursive call.  ([source] cannot be
    [None] after the inner [try], so that check never fires.) *)
Definition play_next_step (env : Env) (guild_id : Z) (c : Cog) : step_result :=
  let st := state c in
  match queue st, voice_client st with
  | [], Some _ =>
      Done (Return tt)
           (set_manager c (start_inactivity_timer (voice_manager c) (evloop c)
                                                  guild_id))
  | _, None => Done (Return tt) c
  | next_song :: rest, Some _ =>
      let c1 := say (set_state c (set_queue st rest)) SpawnPrefetch in
      let '(i, y) := get_audio_source env (ytdl st) (webpage_url next_song) 0 in
      let c2 := set_state c1 (set_ytdl (state c1) y) in
      let '(raised, c3) :=
        match make_source env next_song i with
        | Raise e => (Some e, c2)
        | Return src =>
            let c3 :=
              set_state c2 (set_last_error
                              (set_current_song (state c2) (Some next_song))
                              None) in
            let c4 :=
              set_manager c3 (cancel_inactivity_timer (voice_manager c3)
                                                      (evloop c3) guild_id) in
            match audio_url_log i with
            | Some e => (Some e, c4)
            | None =>
                match play env next_song with
                | Some e => (Some e, c4)
                | None =>
                    let c5 := say c4 (PlaySource src next_song) in
                    match send env (SendNowPlaying next_song) with
                    | Some e => (Some e, c5)
                    | None => (None, say c5 (SendNowPlaying next_song))
                    end
                end
            end
        end in
      match raised with
      | None => Done (Return tt) c3
      | Some e =>
          if is_Exception e then
            let c4 := set_state c3 (set_last_error (state c3) (Some e)) in
            match send env (SendCouldNotPlay next_song e) with
            | Some e' => Done (Raise e') c4
            | None =>
                let c5 := say c4 (SendCouldNotPlay next_song e) in
                match queue (state c5) with
                | [] => Done (Return tt) c5
                | _ :: _ => Again c5
                end
            end
          else Done (Raise e) c3
      end
  end.

(** [play_next], with a bound on the depth of its recursion; [None] means
    the bound was too small. *)
Fixpoint play_next_fuel (fuel : nat) (env : Env) (guild_id : Z) (c : Cog)
  : option (outcome unit * Cog) :=
  match play_next_step env guild_id c with
  | Done r c' => Some (r, c')
  | Again c' =>
      match fuel with
      | O => None
      | S fuel' => play_next_fuel fuel' env guild_id c'
      end
  end.

(** [play_next]: each recursive call comes after a [popleft], so the length
    of the queue bounds the depth. *)
Definition play_next (env : Env) (guild_id : Z) (c : Cog)
  : option (outcome unit * Cog) :=
  play_next_fuel (length (queue (state c))) env guild_id c.

(** A followup message: a failing send leaves the inner [try] of
    [process_songs]. *)
Definition followup (env : Env) (c : Cog) (o : output) : option exn * Cog :=
  match send env o with
  | Some e => (Some e, c)
  | None => (None, say c o)
  end.

(** The inner [try] of [process_songs] once [search_song] has answered
    with [sg]: the enqueue and what follows it. *)
Definition enqueue_and_play (env : Env) (guild_id : Z) (c : Cog)
    (sg : option song) : option (option exn * Cog) :=
  match sg with
  | Some s =>
      if truthy (url s) then
        let st := state c in
        let c1 :=
          set_state c (set_queue st (deque_append Config.MAX_QUEUE_SIZE
                                                  (queue st) s)) in
        let c2 :=
          set_manager c1 (cancel_inactivity_timer (voice_manager c1)
                                                  (evloop c1) guild_id) in
        if negb (is_playing (state c2) (playing_at_enqueue env)) then
          match play_next env guild_id c2 with
          | Some (Return _, c3) => Some (followup env c3 (FollowupPlaying s))
          | Some (Raise e, c3) => Some (Some e, c3)
          | None => None
          end
        else Some (followup env (say c2 SpawnPrefetch) (FollowupAdded s))
      else Some (followup env c FollowupNotFound)
  | None => Some (followup env c FollowupNotFound)
  end.

(** One turn of the [while True] loop of [process_songs]: the request at
    the head of [processing_queue] is served.  The boolean tells whether
    the loop goes on ([False] after [asyncio.CancelledError]). *)
Definition process_songs_turn (env : Env) (guild_id : Z) (c : Cog)
  : option (bool * Cog) :=
  match processing_queue (state c) with
  | [] => Some (true, c)
  | query :: pq =>
      let c0 :=
        set_state c (set_processing (set_processing_queue (state c) pq) true) in
      let priority :=
        if negb (is_playing (state c0) (playing_at_request env)) then 1%Z
        else 2%Z in
      let '(r, y) := search_song env (ytdl (state c0)) query priority in
      let c1 := set_state c0 (set_ytdl (state c0) y) in
      let finally c' := set_state c' (set_processing (state c') false) in
      match r with
      | Raise e => Some (is_Exception e, finally c1)
      | Return sg =>
          match enqueue_and_play env guild_id c1 sg with
          | None => None
          | Some (None, c2) => Some (true, finally c2)
          | Some (Some e, c2) =>
              if is_Exception e then
                match followup env c2 FollowupError with
                | (Some e', c3) => Some (is_Exception e', finally c3)
                | (None, c3) => Some (true, finally c3)
                end
              else Some (false, finally c2)
          end
      end
  end.

(** *** The [queue] command *)

(** A line of the "Up Next" field: a numbered track, or the closing
    ["... and n more songs"]. *)
Inductive queue_line : Type :=
| QueueItem (position : nat) (title url : string)
| MoreSongs (remaining : nat).

(** The loop over [enumerate(list(state.queue))]; [i] is the index of the
    head of [q], [total] is [len(state.queue)]. *)
Fixpoint queue_items_from (i total : nat) (q : list song) : list queue_line :=
  match q with
  | [] => []
  | sg :: q' =>
      QueueItem (S i) (title sg) (webpage_url sg) ::
      (if bool_decide (9 ≤ i) then
         if bool_decide (0 < total - 10) then [MoreSongs (total - 10)] else []
       else queue_items_from (S i) total q')
  end.

Definition queue_items (q : list song) : list queue_line :=
  queue_items_from 0 (length q) q.

Inductive queue_reply : Type :=
| QueueIsEmpty
| QueueEmbed (now_playing : option (string * string))
             (up_next : list queue_line).

(** The [queue] command. *)
Definition queue_command (s : VoiceState) : queue_reply :=
  match queue s, current_song s with
  | [], None => QueueIsEmpty
  | q, cur =>
      QueueEmbed ((λ sg, (title sg, webpage_url sg)) <$> cur) (queue_items q)
  end.

(** *** The [leave] command *)



End MusicImproved.

(** ** audio_downloader.py *)

Module AudioDownloader.

(** What awaiting [_download_sync] under [asyncio.wait_for] produced: the
    path it returned together with whether that file exists, or the
    exception raised (a timeout included). *)
Abbreviation download_result := (outcome (string * bool)).

(** What [download_audio] stores in the url's future; [None] when the
    call is cancelled, which leaves the future unresolved. *)
Definition future_result (res : download_result) : option (outcome string) :=
  match res with
  | Return (filepath, file_exists) =>
      if bool_decide (filepath ≠ "") && file_exists
      then Some (Return filepath)
      else Some (Raise (OtherException "Download completed but file not found"))
  | Raise TimeoutError => Some (Raise (OtherException "Download timed out"))
  | Raise e => if is_Exception e then Some (Raise e) else None
  end.

(** [download_audio], up to its [await]: [None] when a download of [url]
    is already active (the call then awaits that download's future),
    otherwise the active downloads with the url registered. *)
Definition download_audio_begin (active_downloads : gset string) (url : string)
  : option (gset string) :=
  if bool_decide (url ∈ active_downloads) then None
  else Some ({[url]} ∪ active_downloads).

(** [download_audio] for the call that registered [url], from its [await]
    on: the value returned (or the cancellation let through) and the
    active downloads afterwards. *)
Definition download_audio_resume (active_downloads : gset string)
    (url : string) (res : download_result)
  : outcome (option string) * gset string :=
  (match res with
   | Return (filepath, file_exists) =>
       if bool_decide (filepath ≠ "") && file_exists
       then Return (Some filepath) else Return None
   | Raise e => if is_Exception e then Return None else Raise e
   end, active_downloads ∖ {[url]}).

(** [download_audio] for a call that found [url] active: it returns what
    the future yields, with exceptions turned into [None]. *)
Definition download_audio_join (future : outcome string)
  : outcome (option string) :=
  match future with
  | Return filepath => Return (Some filepath)
  | Raise e => if is_Exception e then Return None else Raise e
  end.



End AudioDownloader.

(** ** utils/process_manager.py *)

Module ProcessManager.

Definition max_log_lines : nat := 100.

(** One line read by [_collect_output] (already stripped) goes into the
    log; the oldest line is dropped when the log exceeds
    [max_log_lines]. *)
Definition log_line (log : list string) (line : string) : list string :=
  let log' := log ++ [line] in
  if bool_decide (max_log_lines < length log') then drop 1 log' else log'.

(** The lines read over the life of the process, in order. *)
Definition collect_output (log lines : list string) : list string :=
  foldl log_line log lines.

(** [self.process_logs.get(process_id, [])[-10:]] *)
Definition recent_logs (log : option (list string)) : list string :=
  let l := default [] log in drop (length l - 10) l.

End ProcessManager.

(** ** A small scenario used to exercise the model *)

Module Scenario.

Import MusicUtils VoiceManager MusicImproved.

(** A healthy voice client of guild 7. *)
Definition vc7 : VoiceClient := MkVoiceClient 1 7 true true true None.

(** A transport whose first two attempts fail and whose third succeeds. *)
Definition third_time_lucky : Transport :=
  λ attempt vcs,
    match attempt with
    | 0%nat => (Raise TimeoutError, vcs)
    | 1%nat => (Raise (ConnectionClosed 4006), vcs)
    | _ => (Return vc7, vcs ++ [vc7])
    end.

Definition world0 : World := MkWorld [] (MkLoop ∅ 0) 0 [].

Definition song_of (page : string) : song :=
  Song page page None (Some ("stream:" ++ page)%string).

Definition found (page : string) : info :=
  {[ "webpage_url" := page; "title" := page; "url" := ("stream:" ++ page)%string ]}.

(** The extractor finds nothing for page ["a"], answers the search for
    ["new"] with page ["new"], and resolves every other page. *)
Definition extractor (q : string) : outcome (option info) :=
  if bool_decide (q = "a") then Return None
  else if bool_decide (q = "ytsearch1:new") then Return (Some (found "new"))
  else Return (Some (found q)).

(** The download fallback fails for page ["a"] only; a song is playing. *)
Definition env0 : Env :=
  MkEnv 0 extractor (λ _, None)
        (λ page, if bool_decide (page = "a")
                 then Some (OtherException "Failed to download audio")
                 else None)
        (λ _, None) (λ _, None) true true.

Definition cog_with (q : list song) (requests : list string) : Cog :=
  MkCog (MkVoiceState (Some vc7) None q DEFAULT_VOLUME (new_YTDLSource 4)
                      requests false None false)
        new_manager (MkLoop ∅ 0) [].

(** A queue holding [MAX_QUEUE_SIZE] entries. *)
Definition full_queue : list song :=
  song_of "oldest" :: replicate 99 (song_of "b").

End Scenario.


(** * Properties *)

Import MusicUtils.

(** ** The resolution cache *)

Section Cache.

Local Open Scope Q_scope.

Lemma get_cached_url_fresh self now query url :
  url_cache self !! query = Some url →
  (∃ e, cache_expiry self !! query = Some e ∧ now < e) →
  get_cached_url self now query = Some url.
Proof.
  intros Hc (e & He & Hlt). unfold get_cached_url.
  rewrite Hc, He. simpl. by rewrite bool_decide_eq_true_2.
Qed.

Lemma get_cached_url_expired self now query e :
  cache_expiry self !! query = Some e → e <= now →
  get_cached_url self now query = None.
Proof.
  intros He Hle. unfold get_cached_url.
  destruct (url_cache self !! query); [|done].
  rewrite He. simpl. rewrite bool_decide_eq_false_2; [done|].
  by apply Qle_not_lt.
Qed.

Lemma get_cached_url_Some self now query url :
  get_cached_url self now query = Some url →
  url_cache self !! query = Some url ∧
  now < default 0 (cache_expiry self !! query).
Proof.
  unfold get_cached_url. destruct (url_cache self !! query); [|done].
  case_bool_decide; [|done]. by intros [= ->].
Qed.

(** C2 (as amended): after [(k, v)] is put into the cache at time [now], a
    read of [k] at any time before [now + 3600] returns [v]; a read at or
    after [now + 3600] returns a miss and leaves the cache as it was: the
    expired entry is not removed. *)
Theorem cache_ttl_read (self : YTDLSource) (now now' : Q) (k v : string) :
  let self' := cache_put self now k v in
  (now' < now + 3600 → get_cached_url self' now' k = Some v) ∧
  (now + 3600 <= now' →
     read_cached_url self' now' k = (None, self') ∧
     url_cache (snd (read_cached_url self' now' k)) !! k = Some v).
Proof.
  intros self'. split.
  - intros Hlt. apply get_cached_url_fresh.
    + apply lookup_insert_eq.
    + exists (now + cache_duration). split; [apply lookup_insert_eq | exact Hlt].
  - intros Hle. unfold read_cached_url. simpl. split.
    + f_equal. eapply get_cached_url_expired; [apply lookup_insert_eq | exact Hle].
    + apply lookup_insert_eq.
Qed.

Lemma cache_ttl_read_witness :
  get_cached_url (cache_put (new_YTDLSource 2) 0 "k" "v") 3599 "k" = Some "v" ∧
  read_cached_url (cache_put (new_YTDLSource 2) 0 "k" "v") 3600 "k"
  = (None, cache_put (new_YTDLSource 2) 0 "k" "v").
Proof.
  destruct (cache_ttl_read (new_YTDLSource 2) 0 3599 "k" "v") as [H1 _].
  destruct (cache_ttl_read (new_YTDLSource 2) 0 3600 "k" "v") as [_ H2].
  split.
  - apply H1. reflexivity.
  - apply H2. discriminate.
Defined.

(** C2 as stated fails: the read after the TTL misses, but the entry is
    still in the cache afterwards. *)
Lemma cache_ttl_no_purge :
  let self := cache_put (new_YTDLSource 2) 0 "k" "v" in
  let r := read_cached_url self 4000 "k" in
  fst r = None ∧ url_cache (snd r) !! "k" ≠ None ∧
  cache_expiry (snd r) !! "k" ≠ None.
Proof. vm_compute. repeat split; discriminate. Qed.

End Cache.

(** ** Cache hits of the two request shapes *)

Section CacheHit.

Local Open Scope Q_scope.

Lemma truthy_Some (s : string) : s ≠ "" → truthy (Some s) = true.
Proof. intros H. simpl. by rewrite bool_decide_eq_true_2. Qed.

Lemma get_audio_source_begin_hit self now url priority cached :
  get_cached_url self now url = Some cached → cached ≠ "" →
  get_audio_source_begin self now url priority
  = (Finished (Some (cached_descriptor cached url)), self).
Proof.
  intros Hc Hne. unfold get_audio_source_begin.
  rewrite Hc, (truthy_Some _ Hne). reflexivity.
Qed.

(** C5 (as amended): a direct resolve ([get_audio_source]) of a key with a
    non-expired cache entry holding a non-empty stream URL returns at once,
    without suspending and without handing any work to the pool: the
    [YTDLSource] is left exactly as it was.  (The search shape does not
    consult the cache.) *)
Theorem direct_resolve_cache_hit_no_pool
    (self : YTDLSource) (now : Q) (url cached : string) (priority : Z) :
  url_cache self !! url = Some cached →
  cached ≠ "" →
  (∃ e, cache_expiry self !! url = Some e ∧ now < e) →
  ∃ d, get_audio_source_begin self now url priority = (Finished (Some d), self) ∧
       d !! "url" = Some (Some cached) ∧
       extraction_calls (snd (get_audio_source_begin self now url priority))
       = extraction_calls self.
Proof.
  intros Hc Hne He.
  pose proof (get_cached_url_fresh _ _ _ _ Hc He) as Hget.
  rewrite (get_audio_source_begin_hit _ _ _ priority _ Hget Hne).
  eexists. split; [reflexivity|]. split; [|reflexivity].
  unfold cached_descriptor. by simplify_map_eq.
Qed.

Lemma direct_resolve_cache_hit_no_pool_witness :
  ∃ d, get_audio_source_begin (cache_put (new_YTDLSource 4) 0 "page" "stream")
                              10 "page" 0
       = (Finished (Some d), cache_put (new_YTDLSource 4) 0 "page" "stream") ∧
       d !! "url" = Some (Some "stream").
Proof.
  destruct (direct_resolve_cache_hit_no_pool
              (cache_put (new_YTDLSource 4) 0 "page" "stream")
              10 "page" "stream" 0) as (d & H1 & H2 & _).
  - reflexivity.
  - discriminate.
  - exists (0 + cache_duration). split; reflexivity.
  - exists d. split; assumption.
Defined.

(** C5 as stated fails for the search shape: with non-expired entries
    cached both for the query and for the wrapped search key, [search_song]
    still suspends on new work handed to the pool. *)
Lemma search_ignores_cache :
  let self :=
    cache_put (cache_put (new_YTDLSource 4) 0 "ytsearch1:song" "stream")
              0 "song" "stream" in
  get_cached_url self 10 "ytsearch1:song" = Some "stream" ∧
  get_cached_url self 10 "song" = Some "stream" ∧
  fst (search_song_begin self "song" 1) = Awaiting 0 ∧
  extraction_calls self = [] ∧
  extraction_calls (snd (search_song_begin self "song" 1)) = ["ytsearch1:song"].
Proof. vm_compute. repeat split; reflexivity. Qed.



End CacheHit.

(** ** Deduplication of in-flight resolutions *)

Section Dedup.

Lemma pool_dispatch_submitted_log p :
  submitted_log (pool_dispatch p) = submitted_log p.
Proof. unfold pool_dispatch. by destruct (dispatch _ _ _ _) as [[??]?]. Qed.

Lemma pool_dispatch_next_work_id p :
  next_work_id (pool_dispatch p) = next_work_id p.
Proof. unfold pool_dispatch. by destruct (dispatch _ _ _ _) as [[??]?]. Qed.

Lemma pool_dispatch_max_workers p :
  max_workers (pool_dispatch p) = max_workers p.
Proof. unfold pool_dispatch. by destruct (dispatch _ _ _ _) as [[??]?]. Qed.

(** A rejected call changes nothing; an accepted one marks the key and
    submits exactly one work item, for that key. *)
Lemma extract_info_begin_rejected self query download priority :
  query ∈ download_in_progress self →
  extract_info_begin self query download priority = (None, self).
Proof. intros H. unfold extract_info_begin. by rewrite bool_decide_eq_true_2. Qed.



Lemma extract_info_resume_pool self now query res :
  process_pool (snd (extract_info_resume self now query res))
  = process_pool self.
Proof.
  unfold extract_info_resume. simpl.
  destruct res as [[i|]|e]; try done. by destruct (i !! "url").
Qed.




#[local] Arguments extract_info_resume : simpl never.
#[local] Arguments extract_info_begin : simpl never.
#[local] Arguments pool_complete : simpl never.









End Dedup.

(** ** Order of service in the pool *)

Section Priority.

#[local] Arguments extract_info_resume : simpl never.
#[local] Arguments extract_info_begin : simpl never.

Lemma dispatch_order free pend run log :
  let '(pend', _, log') := dispatch free pend run log in
  log' ++ pend' = log ++ pend.
Proof.
  revert pend run log. induction free as [|free IH]; intros pend run log.
  - by destruct pend.
  - destruct pend as [|w pend]; [done|]. simpl.
    specialize (IH pend (run ++ [w]) (log ++ [w])).
    destruct (dispatch free pend _ _) as [[pend' run'] log'].
    rewrite IH. by rewrite <- app_assoc.
Qed.

Lemma pool_dispatch_order p :
  started_log (pool_dispatch p) ++ pending (pool_dispatch p)
  = started_log p ++ pending p.
Proof.
  unfold pool_dispatch.
  pose proof (dispatch_order (max_workers p - length (running p))
                (pending p) (running p) (started_log p)) as H.
  by destruct (dispatch _ _ _ _) as [[??]?].
Qed.

Lemma pool_fifo_new workers : pool_fifo (new_pool workers).
Proof. split; [done|]. simpl. constructor. Qed.

Lemma pool_fifo_submit p query :
  pool_fifo p → pool_fifo (snd (pool_submit p query)).
Proof.
  intros [Hids Hsub]. unfold pool_submit, pool_fifo. cbn [snd].
  rewrite pool_dispatch_order, pool_dispatch_submitted_log,
    pool_dispatch_next_work_id.
  cbn [submitted_log started_log pending next_work_id]. split.
  - rewrite fmap_app, Hids, seq_S. done.
  - rewrite app_assoc. by apply sublist_app.
Qed.

Lemma pool_fifo_complete p wid : pool_fifo p → pool_fifo (pool_complete p wid).
Proof.
  intros [Hids Hsub]. unfold pool_complete, pool_fifo.
  rewrite pool_dispatch_order, pool_dispatch_submitted_log,
    pool_dispatch_next_work_id.
  cbn [submitted_log started_log pending next_work_id]. split; [done|].
  etrans; [|exact Hsub]. apply sublist_app; [done|apply sublist_filter].
Qed.

Lemma extract_info_begin_priority self query download p1 p2 :
  extract_info_begin self query download p1
  = extract_info_begin self query download p2.
Proof. reflexivity. Qed.

Lemma extract_info_begin_fifo self query download priority :
  pool_fifo (process_pool self) →
  pool_fifo (process_pool (snd (extract_info_begin self query download priority))) ∧
  download_queue (snd (extract_info_begin self query download priority))
  = download_queue self.
Proof.
  intros H. unfold extract_info_begin. case_bool_decide; [done|].
  cbn [snd set_process_pool set_download_in_progress process_pool
       download_queue].
  split; [|done]. by apply pool_fifo_submit.
Qed.

Lemma extract_info_resume_download_queue self now query res :
  download_queue (snd (extract_info_resume self now query res))
  = download_queue self.
Proof.
  unfold extract_info_resume. simpl.
  destruct res as [[i|]|e]; try done. by destruct (i !! "url").
Qed.

Lemma engine_step_fifo e ev :
  pool_fifo (process_pool (source e)) ∧ download_queue (source e) = [] →
  pool_fifo (process_pool (source (engine_step e ev))) ∧
  download_queue (source (engine_step e ev)) = [].
Proof.
  intros [Hf Hq]. destruct ev as [query priority|wid now res]; cbn [engine_step].
  - pose proof (extract_info_begin_fifo (source e) query false priority Hf)
      as [Hf' Hq'].
    destruct (extract_info_begin _ _ _ _) as [[wid|] y]; cbn [source snd] in *;
      (split; [done | congruence]).
  - destruct (List.find _ _) as [[w query]|]; [|done]. cbn [source].
    rewrite extract_info_resume_pool, extract_info_resume_download_queue.
    cbn [set_process_pool process_pool download_queue]. split; [|done].
    by apply pool_fifo_complete.
Qed.

Lemma engine_run_fifo e evs :
  pool_fifo (process_pool (source e)) ∧ download_queue (source e) = [] →
  pool_fifo (process_pool (source (engine_run e evs))) ∧
  download_queue (source (engine_run e evs)) = [].
Proof.
  revert e. induction evs as [|ev evs IH]; intros e He; [done|].
  simpl. apply IH. by apply engine_step_fifo.
Qed.

(** C4 (as amended): the [priority] argument has no effect on the order of
    service.  Whatever calls and resumptions took place, work items are
    numbered in submission order, and the items started so far followed by
    those still waiting form, in that order, a part of the submission
    sequence: the pool serves first-in first-out.  A call with one priority
    does exactly what the same call with another priority does, and the
    [PriorityQueue] of the object stays empty. *)
Theorem pool_serves_in_submission_order
    (workers : nat) (evs : list engine_event) (query : string) (p1 p2 : Z) :
  let e := engine_run (new_engine workers) evs in
  let p := process_pool (source e) in
  w_id <$> submitted_log p = seq 0 (next_work_id p) ∧
  (started_log p ++ pending p) `sublist_of` submitted_log p ∧
  download_queue (source e) = [] ∧
  engine_step e (CallExtract query p1) = engine_step e (CallExtract query p2).
Proof.
  intros e p.
  destruct (engine_run_fifo (new_engine workers) evs) as [[H1 H2] H3].
  { split; [apply pool_fifo_new | done]. }
  repeat split; done.
Qed.

(** C4 as stated fails: with both workers busy, a priority-10 request is
    queued and then a priority-0 request; when the workers become free one
    after the other, the priority-10 request is started first. *)
Lemma priority_zero_served_after_priority_ten :
  let e :=
    engine_run (new_engine 2)
      [CallExtract "a" 1; CallExtract "b" 1;
       CallExtract "low" 10; CallExtract "high" 0] in
  let e' :=
    engine_run e [ResumeExtract 0 0 (Return None);
                  ResumeExtract 1 0 (Return None)] in
  w_query <$> running (process_pool (source e)) = ["a"; "b"] ∧
  w_query <$> pending (process_pool (source e)) = ["low"; "high"] ∧
  w_query <$> started_log (process_pool (source e'))
  = ["a"; "b"; "low"; "high"] ∧
  ¬ started_before (process_pool (source e')) "high" "low".
Proof.
  split; [reflexivity|]. split; [reflexivity|]. split; [reflexivity|].
  intros (i & w & Hi & Hq & Hfirst).
  assert (i = 3) as ->.
  { destruct i as [|[|[|[|i]]]]; vm_compute in Hi; try discriminate;
      injection Hi as <-; try discriminate Hq; reflexivity. }
  specialize (Hfirst 2 (WorkItem 2 "low") eq_refl eq_refl). lia.
Qed.

End Priority.

(** ** The session manager: cooldown *)

Import VoiceManager.

Section Cooldown.

Local Open Scope Z_scope.

Lemma get_lock_connection_attempts m guild_id :
  _connection_attempts (get_lock m guild_id) = _connection_attempts m.
Proof. unfold get_lock. by case_bool_decide. Qed.

Lemma get_lock_tasks_of k m guild_id :
  tasks_of k (get_lock m guild_id) = tasks_of k m.
Proof. unfold get_lock. case_bool_decide; [done|]. by destruct k. Qed.

Lemma get_lock_connections m guild_id :
  _connections (get_lock m guild_id) = _connections m.
Proof. unfold get_lock. by case_bool_decide. Qed.

(** C6: a [connect_with_retry] call made no more than 10 seconds after the
    guild's last recorded attempt returns [None]; the world is left exactly
    as it was (no connect, no disconnect, no sleep, no task started or
    cancelled), and so are the manager's connections, recorded attempts
    and timer dicts. *)
Theorem connect_within_cooldown_rejected
    (transport : Transport) (m : VoiceConnectionManager) (w : World)
    (channel : VoiceChannel) (max_retries : nat) (backoff_base : Z)
    (last_attempt : Z) :
  _connection_attempts m !! ch_guild channel = Some last_attempt →
  clock w - last_attempt ≤ 10 * 1000000 →
  ∃ m',
    connect_with_retry transport m w channel max_retries backoff_base
    = (Return None, m', w) ∧
    _connections m' = _connections m ∧
    _connection_attempts m' = _connection_attempts m ∧
    (∀ k, tasks_of k m' = tasks_of k m).
Proof.
  intros Hlast Hclose. exists (get_lock m (ch_guild channel)).
  split; [|split; [|split]].
  - unfold connect_with_retry, should_retry_connection.
    rewrite get_lock_connection_attempts, Hlast.
    rewrite bool_decide_eq_false_2 by lia. reflexivity.
  - apply get_lock_connections.
  - apply get_lock_connection_attempts.
  - intros k. apply get_lock_tasks_of.
Qed.

Lemma connect_within_cooldown_rejected_witness :
  ∃ m',
    connect_with_retry
      (λ _ vcs, (Return (MkVoiceClient 1 7 true true true None), vcs))
      (set_connection_attempts new_manager {[ 7 := 1000000 ]})
      (MkWorld [] (MkLoop ∅ 0) 11000000 [])
      (MkChannel 42 7) 3 2
    = (Return None, m', MkWorld [] (MkLoop ∅ 0) 11000000 []).
Proof.
  destruct (connect_within_cooldown_rejected
              (λ _ vcs, (Return (MkVoiceClient 1 7 true true true None), vcs))
              (set_connection_attempts new_manager {[ 7 := 1000000 ]})
              (MkWorld [] (MkLoop ∅ 0) 11000000 [])
              (MkChannel 42 7) 3 2 1000000) as (m' & H & _).
  - reflexivity.
  - simpl. lia.
  - exists m'. exact H.
Defined.

End Cooldown.

(** ** The session manager: retries and backoff *)

Section Retry.

Local Open Scope Z_scope.

















End Retry.

(** ** The session manager: one timer task per kind and guild *)

Section Timers.

Local Open Scope Z_scope.

Lemma tasks_of_set_tasks_of k k' m d :
  tasks_of k' (set_tasks_of k m d) = if decide (k = k') then d else tasks_of k' m.
Proof. by destruct k, k'. Qed.

Lemma tasks_of_set_connections k m c :
  tasks_of k (set_connections m c) = tasks_of k m.
Proof. by destruct k. Qed.

Lemma tasks_of_set_connection_attempts k m a :
  tasks_of k (set_connection_attempts m a) = tasks_of k m.
Proof. by destruct k. Qed.

Lemma tracked_ext m m' l :
  (∀ k, tasks_of k m' = tasks_of k m) → tracked (m, l) → tracked (m', l).
Proof.
  intros Heq (Ht & Hf & Hi). split; [|split; [done|]]; cbn [fst snd] in *.
  - intros t k g Hl. rewrite Heq. by apply Ht.
  - intros k g t. rewrite Heq. apply Hi.
Qed.

Lemma cancel_and_forget_tracked k guild_id ml :
  tracked ml → tracked (cancel_and_forget k guild_id ml).
Proof.
  destruct ml as [m l]. intros (Ht & Hf & Hi). unfold cancel_and_forget.
  destruct (tasks_of k m !! guild_id) as [t|] eqn:Hk; [|done].
  cbn [fst snd] in *. split; [|split]; cbn [fst snd].
  - intros t' k' g' Hl. unfold cancel_task in Hl. cbn [live_tasks] in Hl.
    apply lookup_delete_Some in Hl as [Hne Hl].
    pose proof (Ht _ _ _ Hl) as Hd.
    rewrite tasks_of_set_tasks_of. case_decide; [subst k'|done].
    destruct (decide (guild_id = g')) as [->|Hg].
    + congruence.
    + by rewrite lookup_delete_ne.
  - intros t' [x Hl]. unfold cancel_task in *. cbn [live_tasks next_task] in *.
    apply Hf. apply lookup_delete_Some in Hl as [_ Hl]. by exists x.
  - intros k' g' t'. rewrite tasks_of_set_tasks_of. unfold cancel_task.
    cbn [next_task]. case_decide; [subst k'|apply Hi].
    intros Hd. apply lookup_delete_Some in Hd as [_ Hd]. by eapply Hi.
Qed.

Lemma restart_timer_tracked k guild_id ml :
  tracked ml → tracked (restart_timer k guild_id ml).
Proof.
  destruct ml as [m l]. intros (Ht & Hf & Hi). cbn [fst snd] in *.
  unfold restart_timer.
  set (l1 := match tasks_of k m !! guild_id with
             | Some t => cancel_task l t | None => l end).
  assert (next_task l1 = next_task l) as Hnext.
  { subst l1. by destruct (tasks_of k m !! guild_id). }
  assert (∀ t x, live_tasks l1 !! t = Some x → live_tasks l !! t = Some x)
    as Hsub.
  { subst l1. intros t x. destruct (tasks_of k m !! guild_id); [|done].
    unfold cancel_task. cbn [live_tasks]. intros H.
    by apply lookup_delete_Some in H as [_ H]. }
  assert (∀ t, tasks_of k m !! guild_id = Some t → live_tasks l1 !! t = None)
    as Hgone.
  { subst l1. intros t ->. unfold cancel_task. cbn [live_tasks].
    apply lookup_delete_eq. }
  unfold create_task, timers_tracked, loop_fresh, handles_issued.
  split; [|split]; cbn [fst snd live_tasks next_task].
  - intros t' k' g' Hl. rewrite tasks_of_set_tasks_of.
    cbn [live_tasks] in Hl.
    apply lookup_insert_Some in Hl as [[<- [= <- <-]]|[Hne Hl]].
    + rewrite decide_True by done. apply lookup_insert_eq.
    + pose proof (Ht _ _ _ (Hsub _ _ Hl)) as Hd.
      case_decide; [subst k'|done].
      destruct (decide (guild_id = g')) as [<-|Hg].
      * rewrite (Hgone _ Hd) in Hl. discriminate.
      * by rewrite lookup_insert_ne.
  - intros t' [x Hl]. cbn [live_tasks] in Hl.
    apply lookup_insert_Some in Hl as [[<- _]|[_ Hl]].
    + cbn [next_task]. lia.
    + cbn [next_task]. rewrite Hnext. assert (t' < next_task l)%nat; [|lia].
      apply Hf. exists x. by apply Hsub.
  - intros k' g' t'. cbn [next_task]. rewrite tasks_of_set_tasks_of, Hnext.
    case_decide; [subst k'|].
    + intros Hd. apply lookup_insert_Some in Hd as [[_ <-]|[_ Hd]]; [lia|].
      specialize (Hi _ _ _ Hd). lia.
    + intros Hd. specialize (Hi _ _ _ Hd). lia.
Qed.

(** Restarting a timer cancels the task the dict held and leaves a fresh
    live task in its place. *)
Lemma restart_timer_replaces k guild_id m l :
  tracked (m, l) →
  (∀ t, tasks_of k m !! guild_id = Some t →
        live_tasks (snd (restart_timer k guild_id (m, l))) !! t = None) ∧
  tasks_of k (fst (restart_timer k guild_id (m, l))) !! guild_id
  = Some (next_task l) ∧
  live_tasks (snd (restart_timer k guild_id (m, l))) !! next_task l
  = Some (k, guild_id).
Proof.
  intros (Ht & Hf & Hi). cbn [fst snd] in *. unfold restart_timer, create_task.
  destruct (tasks_of k m !! guild_id) as [t0|] eqn:Hk;
    cbn [fst snd live_tasks next_task cancel_task].
  - split; [|split].
    + intros t [= <-]. specialize (Hi _ _ _ Hk).
      rewrite lookup_insert_ne by lia. apply lookup_delete_eq.
    + rewrite tasks_of_set_tasks_of, decide_True by done. apply lookup_insert_eq.
    + apply lookup_insert_eq.
  - split; [done|]. split.
    + rewrite tasks_of_set_tasks_of, decide_True by done. apply lookup_insert_eq.
    + apply lookup_insert_eq.
Qed.

Lemma loop_vc_disconnect w vc force :
  loop (snd (vc_disconnect w vc force)) = loop w.
Proof. unfold vc_disconnect. by destruct (vc_disconnect_error vc). Qed.

Lemma loop_disconnect_stale vcs guild_id w :
  loop (disconnect_stale vcs guild_id w) = loop w.
Proof.
  revert w. induction vcs as [|vc vcs IH]; intros w; [done|].
  simpl. case_bool_decide; rewrite IH; [apply loop_vc_disconnect|done].
Qed.

Lemma forget_connection_tracked m l guild_id :
  tracked (m, l) → tracked (forget_connection m l guild_id).
Proof.
  intros H. unfold forget_connection.
  do 3 apply cancel_and_forget_tracked.
  eapply tracked_ext; [|exact H]. intros k. apply tasks_of_set_connections.
Qed.

Lemma cleanup_stale_connection_tracked m w guild_id :
  tracked (m, loop w) →
  tracked (fst (cleanup_stale_connection m w guild_id),
           loop (snd (cleanup_stale_connection m w guild_id))).
Proof.
  intros H. unfold cleanup_stale_connection.
  pose proof (forget_connection_tracked m
                (loop (disconnect_stale (voice_clients w) guild_id w))
                guild_id) as Hforget.
  rewrite loop_disconnect_stale in Hforget. specialize (Hforget H).
  rewrite loop_disconnect_stale.
  by destruct (forget_connection m (loop w) guild_id) as [m2 l2].
Qed.

Lemma start_session_timers_tracked m l guild_id :
  tracked (m, l) → tracked (start_session_timers m l guild_id).
Proof.
  intros H. unfold start_session_timers. by do 2 apply restart_timer_tracked.
Qed.

Lemma handle_connect_error_tracked m w guild_id attempt max_retries e :
  tracked (m, loop w) →
  tracked
    (snd (fst (handle_connect_error m w guild_id attempt max_retries e)),
     loop (snd (handle_connect_error m w guild_id attempt max_retries e))).
Proof.
  intros H. unfold handle_connect_error. destruct e; try done.
  - repeat case_bool_decide; done.
  - destruct (contains _ _); [|done].
    destruct (List.find _ _) as [vc|]; [|done].
    destruct (validate_session _).
    + cbn [fst snd]. eapply tracked_ext; [|exact H].
      intros k. apply tasks_of_set_connections.
    + pose proof (cleanup_stale_connection_tracked m w guild_id H) as Hc.
      by destruct (cleanup_stale_connection m w guild_id).
Qed.

Lemma connect_attempt_tracked transport channel max_retries backoff_base
    attempt m w :
  tracked (m, loop w) →
  tracked
    (snd (fst (connect_attempt transport channel max_retries backoff_base
                               attempt m w)),
     loop (snd (connect_attempt transport channel max_retries backoff_base
                                attempt m w))).
Proof.
  intros H. unfold connect_attempt.
  set (m1 := set_connection_attempts m _).
  assert (tracked (m1, loop w)) as H1.
  { eapply tracked_ext; [|exact H].
    intros k. apply tasks_of_set_connection_attempts. }
  set (w1 := match backoff_before backoff_base attempt with
             | Some b => sleep w Backoff b | None => w end).
  assert (loop w1 = loop w) as Hw1.
  { subst w1. by destruct (backoff_before backoff_base attempt). }
  destruct (transport attempt _) as [res vcs]. destruct res as [vc|e].
  - destruct (validate_session (Some vc)).
    + pose proof (start_session_timers_tracked
                    (set_connections m1
                       (<[ch_guild channel := vc]> (_connections m1)))
                    (loop w) (ch_guild channel)) as Hs.
      cbn [loop sleep set_voice_clients emit]. rewrite Hw1.
      destruct (start_session_timers _ _ _) as [m3 l3]. cbn [fst snd loop set_loop].
      apply Hs. eapply tracked_ext; [|exact H1].
      intros k. apply tasks_of_set_connections.
    + pose proof (loop_vc_disconnect
                    (sleep (set_voice_clients
                              (emit w1 (EvConnect channel attempt)) vcs)
                           Settle 1) vc true) as Hl.
      destruct (vc_disconnect _ vc true) as [[e|] w5]; cbn [snd] in Hl.
      * apply handle_connect_error_tracked. rewrite Hl.
        cbn [loop sleep set_voice_clients emit]. by rewrite Hw1.
      * cbn [fst snd]. rewrite Hl.
        cbn [loop sleep set_voice_clients emit]. by rewrite Hw1.
  - apply handle_connect_error_tracked.
    cbn [loop set_voice_clients emit]. by rewrite Hw1.
Qed.

Lemma retry_loop_tracked transport channel max_retries backoff_base
    remaining attempt m w :
  tracked (m, loop w) →
  tracked
    (snd (fst (retry_loop transport channel max_retries backoff_base
                          remaining attempt m w)),
     loop (snd (retry_loop transport channel max_retries backoff_base
                           remaining attempt m w))).
Proof.
  revert attempt m w. induction remaining as [|r IH]; intros attempt m w H;
    [done|].
  cbn [retry_loop].
  pose proof (connect_attempt_tracked transport channel max_retries
                backoff_base attempt m w H) as Hstep.
  destruct (connect_attempt _ _ _ _ _ _ _) as [[[vc| |e] m'] w'];
    cbn [fst snd] in *; [done| |done].
  by apply IH.
Qed.

Lemma get_lock_tracked m l guild_id :
  tracked (m, l) → tracked (get_lock m guild_id, l).
Proof. apply tracked_ext. intros k. apply get_lock_tasks_of. Qed.

Lemma connect_with_retry_tracked transport m w channel max_retries
    backoff_base :
  tracked (m, loop w) →
  tracked
    (snd (fst (connect_with_retry transport m w channel max_retries
                                  backoff_base)),
     loop (snd (connect_with_retry transport m w channel max_retries
                                   backoff_base))).
Proof.
  intros H. unfold connect_with_retry.
  apply (get_lock_tracked _ _ (ch_guild channel)) in H.
  destruct (negb _); [done|].
  pose proof (cleanup_stale_connection_tracked _ w (ch_guild channel) H) as Hc.
  destruct (cleanup_stale_connection _ _ _) as [m1 w1].
  by apply retry_loop_tracked.
Qed.

Lemma disconnect_tracked m w guild_id :
  tracked (m, loop w) →
  tracked (fst (disconnect m w guild_id), loop (snd (disconnect m w guild_id))).
Proof.
  intros H. unfold disconnect.
  apply (get_lock_tracked _ _ guild_id) in H.
  apply cleanup_stale_connection_tracked.
  destruct (_connections _ !! guild_id); [|done].
  by rewrite loop_vc_disconnect.
Qed.

Lemma move_to_tracked transport move_error m w guild_id channel :
  tracked (m, loop w) →
  tracked
    (snd (fst (move_to transport move_error m w guild_id channel)),
     loop (snd (move_to transport move_error m w guild_id channel))).
Proof.
  intros H. unfold move_to.
  destruct (_connections m !! guild_id) as [vc|];
    [|by apply connect_with_retry_tracked].
  destruct (validate_session (Some vc)); [|by apply connect_with_retry_tracked].
  destruct move_error as [e|]; [|done].
  destruct (is_Exception e); [|done].
  pose proof (cleanup_stale_connection_tracked m
                (emit w (EvMoveTo (vc_id vc) channel)) guild_id H) as Hc.
  destruct (cleanup_stale_connection _ _ _) as [m2 w2].
  by apply connect_with_retry_tracked.
Qed.

Lemma manager_step_tracked mw mw' :
  manager_step mw mw' →
  tracked (fst mw, loop (snd mw)) → tracked (fst mw', loop (snd mw')).
Proof.
  intros Hstep H. destruct Hstep as
    [transport m w channel n b r m' w' Heq
    |transport move_error m w g channel r m' w' Heq
    |m w g|m w g|m w g m' l' Heq|m w g m' l' Heq|m w t]; cbn [fst snd] in *.
  - pose proof (connect_with_retry_tracked transport m w channel n b H) as Hc.
    by rewrite Heq in Hc.
  - pose proof (move_to_tracked transport move_error m w g channel H) as Hc.
    by rewrite Heq in Hc.
  - by apply disconnect_tracked.
  - by apply cleanup_stale_connection_tracked.
  - pose proof (restart_timer_tracked Inactivity g (m, loop w) H) as Hc.
    unfold start_inactivity_timer in Heq. by rewrite Heq in Hc.
  - pose proof (cancel_and_forget_tracked Inactivity g (m, loop w) H) as Hc.
    unfold cancel_inactivity_timer in Heq. by rewrite Heq in Hc.
  - destruct H as (Ht & Hf & Hi). cbn [fst snd] in *.
    unfold task_exit, cancel_task. split; [|split]; cbn [fst snd loop set_loop].
    + intros t' k g Hl. cbn [live_tasks] in Hl.
      apply lookup_delete_Some in Hl as [_ Hl]. by apply Ht.
    + intros t' [x Hl]. cbn [live_tasks next_task] in *.
      apply lookup_delete_Some in Hl as [_ Hl]. apply Hf. by exists x.
    + exact Hi.
Qed.

Lemma manager_reachable_tracked m w :
  manager_reachable m w → tracked (m, loop w).
Proof.
  intros (w0 & Hempty & Hrun).
  assert (tracked (new_manager, loop w0)) as H0.
  { split; [|split]; cbn [fst snd].
    - intros t k g. rewrite Hempty, lookup_empty. done.
    - intros t [x Hl]. rewrite Hempty, lookup_empty in Hl. done.
    - intros k g t. destruct k; simpl; rewrite lookup_empty; done. }
  remember (new_manager, w0) as s0 eqn:Hs0.
  remember (m, w) as s eqn:Hs.
  assert (tracked (fst s0, loop (snd s0))) as Hstart by (by subst s0).
  clear Hs0 H0 Hempty.
  assert (tracked (fst s, loop (snd s))) as Hend.
  { clear Hs. induction Hrun as [|x y z Hxy Hyz IH]; [done|].
    apply IH. by eapply manager_step_tracked. }
  by subst s.
Qed.

(** C9: in every state the manager can reach, and for each timer kind
    (session refresh, keepalive, inactivity) and each guild, at most one
    task of that kind is alive, and it is the one the kind's dict holds.
    Starting a timer of a kind ([if guild_id in d: d[guild_id].cancel()]
    followed by [d[guild_id] = create_task(...)]) leaves the task that the
    dict held before not alive, and the new task as the only live one of
    its kind for the guild. *)
Theorem one_timer_task_per_kind_and_guild
    (m : VoiceConnectionManager) (w : World) (k : timer_kind) (guild_id : Z) :
  manager_reachable m w →
  (∀ t1 t2,
      live_tasks (loop w) !! t1 = Some (k, guild_id) →
      live_tasks (loop w) !! t2 = Some (k, guild_id) → t1 = t2) ∧
  (∀ t, live_tasks (loop w) !! t = Some (k, guild_id) →
        tasks_of k m !! guild_id = Some t) ∧
  (let m' := fst (restart_timer k guild_id (m, loop w)) in
   let l' := snd (restart_timer k guild_id (m, loop w)) in
   (∀ t, tasks_of k m !! guild_id = Some t → live_tasks l' !! t = None) ∧
   ∃ t', tasks_of k m' !! guild_id = Some t' ∧
         live_tasks l' !! t' = Some (k, guild_id) ∧
         ∀ t, live_tasks l' !! t = Some (k, guild_id) → t = t').
Proof.
  intros Hreach. pose proof (manager_reachable_tracked m w Hreach) as Htr.
  pose proof Htr as (Ht & Hf & Hi). cbn [fst snd] in *.
  split; [|split].
  - intros t1 t2 H1 H2. apply Ht in H1, H2. congruence.
  - intros t. apply Ht.
  - cbv zeta.
    destruct (restart_timer_replaces k guild_id m (loop w) Htr)
      as (Hold & Hdict & Hlive).
    split; [exact Hold|]. exists (next_task (loop w)).
    split; [exact Hdict|]. split; [exact Hlive|].
    intros t Hl.
    pose proof (restart_timer_tracked k guild_id (m, loop w) Htr)
      as (Ht' & _ & _).
    apply Ht' in Hl. congruence.
Qed.

Lemma one_timer_task_per_kind_and_guild_witness :
  let run :=
    connect_with_retry Scenario.third_time_lucky new_manager Scenario.world0
                       (MkChannel 42 7) default_max_retries
                       default_backoff_base in
  let m := snd (fst run) in
  let w := snd run in
  (∀ t1 t2,
      live_tasks (loop w) !! t1 = Some (Keepalive, 7) →
      live_tasks (loop w) !! t2 = Some (Keepalive, 7) → t1 = t2) ∧
  tasks_of Keepalive m !! 7 = Some 1%nat ∧
  live_tasks (snd (restart_timer Keepalive 7 (m, loop w))) !! 1%nat = None.
Proof.
  intros run m w.
  destruct (one_timer_task_per_kind_and_guild m w Keepalive 7)
    as (Huniq & _ & Hold & _).
  - exists Scenario.world0. split; [reflexivity|]. apply rtc_once.
    apply (step_connect Scenario.third_time_lucky new_manager Scenario.world0
             (MkChannel 42 7) default_max_retries default_backoff_base
             (fst (fst run))).
    vm_compute. reflexivity.
  - split; [exact Huniq|]. split; [vm_compute; reflexivity|].
    apply Hold. vm_compute. reflexivity.
Defined.

End Timers.

(** ** The playback queue: capacity *)

Import MusicImproved.

Section QueueBound.

Lemma deque_append_room {A} (maxlen : nat) (q : list A) (x : A) :
  length q < maxlen → deque_append maxlen q x = q ++ [x].
Proof.
  intros H. unfold deque_append. rewrite bool_decide_eq_true_2; [done|].
  rewrite length_app. simpl. lia.
Qed.

Lemma deque_append_full {A} (maxlen : nat) (q : list A) (x : A) :
  0 < maxlen → length q = maxlen →
  deque_append maxlen q x = drop 1 q ++ [x].
Proof.
  intros Hpos H. unfold deque_append. rewrite bool_decide_eq_false_2.
  - destruct q; [simpl in H; lia | done].
  - rewrite length_app. simpl. lia.
Qed.

Lemma deque_append_length {A} (maxlen : nat) (q : list A) (x : A) :
  length q ≤ maxlen → length (deque_append maxlen q x) ≤ maxlen.
Proof.
  intros H. unfold deque_append. case_bool_decide; [done|].
  rewrite length_drop, length_app. simpl. lia.
Qed.

(** C1 (as amended): enqueueing a track when the playback queue already
    holds [MAX_QUEUE_SIZE] entries succeeds: the oldest entry (the head) is
    discarded, the new track is appended at the tail and the queue still
    holds [MAX_QUEUE_SIZE] entries.  When a song is playing, the caller is
    told the track was added. *)
Theorem enqueue_on_full_queue_evicts_head
    (env : Env) (guild_id : Z) (c : Cog) (s : song) (vc : VoiceClient) :
  length (queue (state c)) = Config.MAX_QUEUE_SIZE →
  truthy (url s) = true →
  voice_client (state c) = Some vc →
  playing_at_enqueue env = true →
  send env (FollowupAdded s) = None →
  deque_append Config.MAX_QUEUE_SIZE (queue (state c)) s
  = drop 1 (queue (state c)) ++ [s] ∧
  ∃ c', enqueue_and_play env guild_id c (Some s) = Some (None, c') ∧
        queue (state c') = drop 1 (queue (state c)) ++ [s] ∧
        length (queue (state c')) = Config.MAX_QUEUE_SIZE ∧
        outputs c' = outputs c ++ [SpawnPrefetch; FollowupAdded s].
Proof.
  intros Hfull Hurl Hvc Hplaying Hsend.
  assert (0 < Config.MAX_QUEUE_SIZE) as Hpos by (unfold Config.MAX_QUEUE_SIZE; lia).
  pose proof (deque_append_full _ _ s Hpos Hfull) as Happ.
  split; [exact Happ|].
  unfold enqueue_and_play. rewrite Hurl.
  unfold is_playing, followup. cbn. rewrite Hvc, Hplaying, Hsend. cbn.
  eexists. split; [reflexivity|]. cbn. rewrite Happ.
  split; [reflexivity|]. split.
  - rewrite length_app, length_drop, Hfull. reflexivity.
  - by rewrite <- app_assoc.
Qed.

Lemma enqueue_on_full_queue_evicts_head_witness :
  ∃ c', enqueue_and_play Scenario.env0 7
          (Scenario.cog_with Scenario.full_queue [])
          (Some (Scenario.song_of "new"))
        = Some (None, c') ∧
        queue (state c')
        = replicate 99 (Scenario.song_of "b") ++ [Scenario.song_of "new"].
Proof.
  destruct (enqueue_on_full_queue_evicts_head Scenario.env0 7
              (Scenario.cog_with Scenario.full_queue [])
              (Scenario.song_of "new") Scenario.vc7)
    as (_ & c' & H1 & H2 & _).
  - reflexivity.
  - reflexivity.
  - reflexivity.
  - reflexivity.
  - reflexivity.
  - exists c'. split; [exact H1|]. rewrite H2. reflexivity.
Defined.

(** C1 as stated fails: a request served while the queue holds
    [MAX_QUEUE_SIZE] entries is answered with "Added to queue", and the
    queue has changed: its oldest entry is gone. *)
Lemma full_queue_enqueue_is_not_refused :
  ∃ c', process_songs_turn Scenario.env0 7
          (Scenario.cog_with Scenario.full_queue ["new"])
        = Some (true, c') ∧
        length Scenario.full_queue = Config.MAX_QUEUE_SIZE ∧
        outputs c' = [SpawnPrefetch; FollowupAdded (Scenario.song_of "new")] ∧
        queue (state c') ≠ Scenario.full_queue ∧
        Scenario.song_of "oldest" ∉ queue (state c').
Proof.
  eexists. split; [vm_compute; reflexivity|].
  split; [reflexivity|]. split; [reflexivity|]. split.
  - cbn. discriminate.
  - apply (bool_decide_unpack _). vm_compute. exact I.
Qed.

End QueueBound.

(** ** The playback queue: draining past a track that cannot be played *)

Section Drain.

(** The recursive call of [play_next] is made on a shorter queue. *)
Lemma play_next_step_again env guild_id c c' :
  play_next_step env guild_id c = Again c' →
  S (length (queue (state c'))) ≤ length (queue (state c)).
Proof.
  unfold play_next_step.
  destruct (queue (state c)) as [|next_song rest] eqn:Hq;
    destruct (voice_client (state c)) as [vc|]; try done.
  destruct (get_audio_source _ _ _ _) as [i y].
  destruct (make_source env next_song i) as [src|e].
  - destruct (audio_url_log i) as [e|].
    + destruct (is_Exception e); [|done].
      destruct (send env _); [done|]. cbn.
      destruct rest; [done|]. intros [= <-]. cbn. lia.
    + destruct (play env next_song) as [e|].
      * destruct (is_Exception e); [|done].
        destruct (send env _); [done|]. cbn.
        destruct rest; [done|]. intros [= <-]. cbn. lia.
      * destruct (send env (SendNowPlaying next_song)) as [e|]; [|done].
        destruct (is_Exception e); [|done].
        destruct (send env _); [done|]. cbn.
        destruct rest; [done|]. intros [= <-]. cbn. lia.
  - destruct (is_Exception e); [|done].
    destruct (send env _); [done|]. cbn.
    destruct rest; [done|]. intros [= <-]. cbn. lia.
Qed.

Lemma play_next_fuel_enough fuel env guild_id c :
  length (queue (state c)) ≤ fuel →
  ∃ r, play_next_fuel fuel env guild_id c = Some r.
Proof.
  revert c. induction fuel as [|fuel IH]; intros c Hlen.
  - cbn [play_next_fuel].
    destruct (play_next_step env guild_id c) as [r c'|c'] eqn:Hstep; [eauto|].
    apply play_next_step_again in Hstep. lia.
  - cbn [play_next_fuel].
    destruct (play_next_step env guild_id c) as [r c'|c'] eqn:Hstep; [eauto|].
    apply play_next_step_again in Hstep. apply IH. lia.
Qed.

(** [play_next] always comes to an end. *)
Lemma play_next_total env guild_id c : ∃ r, play_next env guild_id c = Some r.
Proof. by apply play_next_fuel_enough. Qed.






End Drain.

(** * Further properties of the code *)

(** ** The resolution engine: what an extraction leaves behind *)

Section Extraction.

Local Open Scope Q_scope.

Lemma extract_info_resume_cached self now query (i : info) u :
  i !! "url" = Some u →
  snd (extract_info_resume self now query (Return (Some i)))
  = set_download_in_progress (cache_put self now query u)
      (download_in_progress self ∖ {[query]}).
Proof. intros Hu. unfold extract_info_resume. by rewrite Hu. Qed.

Lemma prefetch_song_resume_state self now url res :
  snd (prefetch_song_resume self now url res)
  = snd (extract_info_resume self now url res).
Proof.
  unfold prefetch_song_resume. by destruct (extract_info_resume _ _ _ _).
Qed.

Lemma get_audio_source_resume_state self now url res :
  snd (get_audio_source_resume self now url res)
  = snd (extract_info_resume self now url res).
Proof.
  unfold get_audio_source_resume. by destruct (extract_info_resume _ _ _ _).
Qed.


(** X1: a prefetch whose extraction produced a non-empty stream URL at time
    [now] warms the cache: every direct resolve of the same page before
    [now + 3600] returns at once with that URL, the object untouched and no
    work handed to the pool. *)
Theorem prefetch_warms_cache
    (self : YTDLSource) (now now' : Q) (page u : string) (i : info)
    (priority : Z) :
  i !! "url" = Some u →
  u ≠ "" →
  now' < now + 3600 →
  let self' := snd (prefetch_song_resume self now page (Return (Some i))) in
  fst (prefetch_song_resume self now page (Return (Some i))) = Return true ∧
  get_audio_source_begin self' now' page priority
  = (Finished (Some (cached_descriptor u page)), self').
Proof.
  intros Hu Hne Hlt self'. split.
  - unfold prefetch_song_resume, extract_info_resume. reflexivity.
  - apply get_audio_source_begin_hit; [|done].
    subst self'. rewrite prefetch_song_resume_state.
    rewrite (extract_info_resume_cached _ _ _ _ _ Hu).
    apply get_cached_url_fresh; cbn.
    + apply lookup_insert_eq.
    + exists (now + cache_duration). split; [apply lookup_insert_eq | exact Hlt].
Qed.

Lemma prefetch_warms_cache_witness :
  get_audio_source_begin
    (snd (prefetch_song_resume (new_YTDLSource 4) 0 "b"
            (Return (Some (Scenario.found "b")))))
    100 "b" 0
  = (Finished (Some (cached_descriptor "stream:b" "b")),
     snd (prefetch_song_resume (new_YTDLSource 4) 0 "b"
            (Return (Some (Scenario.found "b"))))).
Proof.
  apply (prefetch_warms_cache (new_YTDLSource 4) 0 100 "b" "stream:b"
           (Scenario.found "b") 0).
  - reflexivity.
  - discriminate.
  - reflexivity.
Defined.





(** X4: [prefetch_song] answers [True] whenever awaiting the extraction did
    not raise, also when nothing was resolved: when the key was already in
    flight (no work is submitted then) and when the extractor returned
    [None].  It answers [False] exactly when the await raised an
    [Exception]. *)
Theorem prefetch_reports_success_without_result
    (self : YTDLSource) (now : Q) (page : string) (r : option info) (e : exn) :
  (page ∈ download_in_progress self →
   prefetch_song_begin self page = (Finished true, self)) ∧
  fst (prefetch_song_resume self now page (Return r)) = Return true ∧
  (is_Exception e = true →
   fst (prefetch_song_resume self now page (Raise e)) = Return false).
Proof.
  split; [|split].
  - intros Hin. unfold prefetch_song_begin.
    by rewrite extract_info_begin_rejected.
  - unfold prefetch_song_resume, extract_info_resume. by destruct r.
  - intros He. unfold prefetch_song_resume, extract_info_resume. cbn.
    by rewrite He.
Qed.

Lemma prefetch_reports_success_without_result_witness :
  prefetch_song_begin
    (snd (extract_info_begin (new_YTDLSource 4) "b" false 0)) "b"
  = (Finished true, snd (extract_info_begin (new_YTDLSource 4) "b" false 0)) ∧
  fst (prefetch_song_resume (new_YTDLSource 4) 0 "b" (Raise TimeoutError))
  = Return false.
Proof.
  destruct (prefetch_reports_success_without_result
              (snd (extract_info_begin (new_YTDLSource 4) "b" false 0))
              0 "b" None TimeoutError) as (H1 & _ & _).
  destruct (prefetch_reports_success_without_result
              (new_YTDLSource 4) 0 "b" None TimeoutError) as (_ & _ & H3).
  split.
  - apply H1. apply (bool_decide_unpack _). vm_compute. exact I.
  - apply H3. reflexivity.
Defined.

End Extraction.

(** ** The session manager: cleanup, disconnect and the outcomes of a connect *)

Section Session.

Local Open Scope Z_scope.



Lemma cancel_and_forget_tasks_of k k' guild_id m l :
  tasks_of k' (fst (cancel_and_forget k guild_id (m, l)))
  = if decide (k = k') then delete guild_id (tasks_of k' m) else tasks_of k' m.
Proof.
  unfold cancel_and_forget.
  destruct (tasks_of k m !! guild_id) eqn:Hk; cbn [fst].
  - rewrite tasks_of_set_tasks_of. by case_decide; subst.
  - case_decide; [subst k'|done]. by rewrite delete_id.
Qed.

Lemma cancel_and_forget_connections k guild_id m l :
  _connections (fst (cancel_and_forget k guild_id (m, l))) = _connections m ∧
  _connection_attempts (fst (cancel_and_forget k guild_id (m, l)))
  = _connection_attempts m ∧
  _connection_locks (fst (cancel_and_forget k guild_id (m, l)))
  = _connection_locks m.
Proof.
  unfold cancel_and_forget.
  destruct (tasks_of k m !! guild_id); [|done]. by destruct k.
Qed.






















Lemma restart_timer_other k k' guild_id m l :
  k ≠ k' →
  tasks_of k' (fst (restart_timer k guild_id (m, l))) = tasks_of k' m.
Proof.
  intros Hk. unfold restart_timer, create_task.
  destruct (tasks_of k m !! guild_id); cbn [fst];
    rewrite tasks_of_set_tasks_of; by rewrite decide_False.
Qed.

Lemma restart_timer_connections k guild_id m l :
  _connections (fst (restart_timer k guild_id (m, l))) = _connections m.
Proof.
  unfold restart_timer, create_task.
  destruct (tasks_of k m !! guild_id); by destruct k.
Qed.

(** X12: starting the inactivity timer leaves one live inactivity task for
    the guild, held by the dict; cancelling it afterwards removes the dict
    entry and leaves no inactivity task of the guild alive.  Neither
    touches the connection records or the dicts of the other two timer
    kinds. *)
Theorem inactivity_timer_start_then_cancel
    (m : VoiceConnectionManager) (l : EventLoop) (guild_id : Z)
    (k : timer_kind) :
  tracked (m, l) →
  let started := start_inactivity_timer m l guild_id in
  let cancelled :=
    cancel_inactivity_timer (fst started) (snd started) guild_id in
  tasks_of Inactivity (fst started) !! guild_id = Some (next_task l) ∧
  live_tasks (snd started) !! next_task l = Some (Inactivity, guild_id) ∧
  tasks_of Inactivity (fst cancelled) !! guild_id = None ∧
  (∀ t, live_tasks (snd cancelled) !! t ≠ Some (Inactivity, guild_id)) ∧
  (k ≠ Inactivity → tasks_of k (fst cancelled) = tasks_of k m) ∧
  _connections (fst cancelled) = _connections m.
Proof.
  intros Htr started cancelled. subst cancelled started.
  unfold start_inactivity_timer, cancel_inactivity_timer.
  destruct (restart_timer_replaces Inactivity guild_id m l Htr)
    as (_ & Hdict & Hlive).
  pose proof (restart_timer_tracked Inactivity guild_id (m, l) Htr) as Htr1.
  pose proof (restart_timer_other Inactivity k guild_id m l) as Hother.
  pose proof (restart_timer_connections Inactivity guild_id m l) as Hconn.
  destruct (restart_timer Inactivity guild_id (m, l)) as [m1 l1] eqn:E1.
  cbn [fst snd] in *.
  pose proof (cancel_and_forget_tracked Inactivity guild_id (m1, l1) Htr1)
    as (Htt & _).
  pose proof (cancel_and_forget_tasks_of Inactivity Inactivity guild_id m1 l1)
    as HtI.
  pose proof (cancel_and_forget_tasks_of Inactivity k guild_id m1 l1) as Htk.
  destruct (cancel_and_forget_connections Inactivity guild_id m1 l1)
    as (Hc & _ & _).
  rewrite decide_True in HtI by done.
  split; [exact Hdict|]. split; [exact Hlive|].
  split; [rewrite HtI; apply lookup_delete_eq|].
  split; [|split].
  - intros t Hl. apply Htt in Hl. rewrite HtI, lookup_delete_eq in Hl. done.
  - intros Hk. rewrite Htk, decide_False by done. by apply Hother.
  - by rewrite Hc.
Qed.

Lemma inactivity_timer_start_then_cancel_witness :
  let started := start_inactivity_timer new_manager (MkLoop ∅ 0) 7 in
  live_tasks (snd started) !! 0%nat = Some (Inactivity, 7) ∧
  ∀ t, live_tasks
         (snd (cancel_inactivity_timer (fst started) (snd started) 7)) !! t
       ≠ Some (Inactivity, 7).
Proof.
  intros started.
  destruct (inactivity_timer_start_then_cancel new_manager (MkLoop ∅ 0) 7
              Keepalive) as (_ & H2 & _ & H4 & _).
  - apply (manager_reachable_tracked new_manager Scenario.world0).
    exists Scenario.world0. split; [reflexivity|]. apply rtc_refl.
  - split; [exact H2 | exact H4].
Defined.

End Session.

(** ** The playback queue: order, bound and progress *)

Section Playback.

(** What one activation of [play_next] leaves untouched, and what it does
    to the queue: nothing, or it takes the head off. *)
Lemma play_next_step_frame env guild_id c :
  let c' := match play_next_step env guild_id c with
            | Done _ c' => c' | Again c' => c' end in
  voice_client (state c') = voice_client (state c) ∧
  processing_queue (state c') = processing_queue (state c) ∧
  processing (state c') = processing (state c) ∧
  (queue (state c') = queue (state c) ∨
   queue (state c') = drop 1 (queue (state c)) ∧ queue (state c) ≠ [] ∧
   voice_client (state c) ≠ None).
Proof.
  unfold play_next_step.
  destruct (queue (state c)) as [|next_song rest] eqn:Hq;
    destruct (voice_client (state c)) as [vc|] eqn:Hvc;
    try (cbn; rewrite ?Hq, ?Hvc; by auto).
  destruct (get_audio_source _ _ _ _) as [i y].
  assert (∀ A (x : A) l, x :: l ≠ []) as Hcons by done.
  destruct (make_source env next_song i) as [src|e];
    [destruct (audio_url_log i) as [e|];
     [|destruct (play env next_song) as [e|];
       [|destruct (send env (SendNowPlaying next_song)) as [e|]]]|];
    try destruct (is_Exception e);
    try destruct (send env (SendCouldNotPlay next_song e));
    cbn; try destruct rest; cbn; rewrite ?Hvc; auto 10.
Qed.

Lemma play_next_fuel_frame fuel env guild_id c r c' :
  play_next_fuel fuel env guild_id c = Some (r, c') →
  voice_client (state c') = voice_client (state c) ∧
  processing_queue (state c') = processing_queue (state c) ∧
  processing (state c') = processing (state c) ∧
  queue (state c') `suffix_of` queue (state c) ∧
  (queue (state c) ≠ [] → voice_client (state c) ≠ None →
   length (queue (state c')) < length (queue (state c))).
Proof.
  revert c. induction fuel as [|fuel IH]; intros c; cbn [play_next_fuel];
    pose proof (play_next_step_frame env guild_id c) as Hf;
    pose proof (play_next_step_again env guild_id c) as Hagain;
    destruct (play_next_step env guild_id c) as [r1 c1|c1] eqn:Hstep;
    cbn zeta in Hf; destruct Hf as (Hvc & Hpq & Hp & Hq); try done.
  - intros [= <- <-]. split; [done|]. split; [done|]. split; [done|].
    destruct Hq as [Hq|(Hq & Hne & _)]; rewrite Hq.
    + split; [done|]. unfold play_next_step in Hstep.
      intros Hne Hv.
      destruct (queue (state c)) as [|s rest] eqn:E; [done|].
      destruct (voice_client (state c)) eqn:E'; [|done].
      pose proof (f_equal length Hq) as Hlen. exfalso.
      clear -Hstep Hq E. revert Hstep.
      destruct (get_audio_source _ _ _ _) as [i y].
      destruct (make_source env s i) as [src|e];
        [destruct (audio_url_log i) as [e|];
         [|destruct (play env s) as [e|];
           [|destruct (send env (SendNowPlaying s)) as [e|]]]|];
        try destruct (is_Exception e);
        try destruct (send env (SendCouldNotPlay s e));
        try destruct rest; intros [= <- <-]; cbn in Hq;
        apply (f_equal length) in Hq; cbn in Hq; lia.
    + split; [apply suffix_drop|]. intros _ _.
      rewrite length_drop. destruct (queue (state c)); [done|]. cbn. lia.
  - intros [= <- <-]. split; [done|]. split; [done|]. split; [done|].
    destruct Hq as [Hq|(Hq & Hne & _)]; rewrite Hq.
    + split; [done|]. unfold play_next_step in Hstep.
      intros Hne Hv.
      destruct (queue (state c)) as [|s rest] eqn:E; [done|].
      destruct (voice_client (state c)) eqn:E'; [|done].
      exfalso. clear -Hstep Hq E. revert Hstep.
      destruct (get_audio_source _ _ _ _) as [i y].
      destruct (make_source env s i) as [src|e];
        [destruct (audio_url_log i) as [e|];
         [|destruct (play env s) as [e|];
           [|destruct (send env (SendNowPlaying s)) as [e|]]]|];
        try destruct (is_Exception e);
        try destruct (send env (SendCouldNotPlay s e));
        try destruct rest; intros [= <- <-]; cbn in Hq;
        apply (f_equal length) in Hq; cbn in Hq; lia.
    + split; [apply suffix_drop|]. intros _ _.
      rewrite length_drop. destruct (queue (state c)); [done|]. cbn. lia.
  - intros Hrec. destruct (IH _ Hrec) as (Hvc' & Hpq' & Hp' & Hsuf & Hlt).
    specialize (Hagain c1 eq_refl).
    split; [congruence|]. split; [congruence|]. split; [congruence|].
    assert (queue (state c1) `suffix_of` queue (state c)) as Hs1.
    { destruct Hq as [->|[-> _]]; [done|apply suffix_drop]. }
    split; [by etrans|]. intros _ _.
    apply suffix_length in Hsuf. lia.
Qed.

(** X13: [play_next] only ever takes tracks off the head of the queue:
    what is left is a suffix of the queue it found, in the same order; with
    a voice client and a non-empty queue at least one track is taken.  It
    never changes the voice client, the pending requests or the
    [processing] flag. *)
Theorem play_next_takes_from_head
    (env : Env) (guild_id : Z) (c c' : Cog) (r : outcome unit) :
  play_next env guild_id c = Some (r, c') →
  queue (state c') `suffix_of` queue (state c) ∧
  (queue (state c) ≠ [] → voice_client (state c) ≠ None →
   length (queue (state c')) < length (queue (state c))) ∧
  voice_client (state c') = voice_client (state c) ∧
  processing_queue (state c') = processing_queue (state c) ∧
  processing (state c') = processing (state c).
Proof.
  intros H. apply play_next_fuel_frame in H as (H1 & H2 & H3 & H4 & H5).
  done.
Qed.

Lemma play_next_takes_from_head_witness :
  match play_next Scenario.env0 7
          (Scenario.cog_with
             [Scenario.song_of "a"; Scenario.song_of "b"; Scenario.song_of "c"]
             []) with
  | Some (_, c') =>
      queue (state c') `suffix_of`
        [Scenario.song_of "a"; Scenario.song_of "b"; Scenario.song_of "c"]
  | None => False
  end.
Proof.
  destruct (play_next Scenario.env0 7 _) as [[r c']|] eqn:H.
  - apply (play_next_takes_from_head Scenario.env0 7 _ c' r) in H as [H _].
    exact H.
  - vm_compute in H. discriminate H.
Defined.

(** X14: with no voice client [play_next] does nothing at all, whatever is
    queued.  With a voice client and an empty queue it starts the guild's
    inactivity timer (a live task, held by the dict) and changes nothing
    else: nothing is sent, the [VoiceState] is as before. *)
Theorem play_next_idle_cases (env : Env) (guild_id : Z) (c : Cog) :
  (voice_client (state c) = None →
   play_next env guild_id c = Some (Return tt, c)) ∧
  (voice_client (state c) ≠ None → queue (state c) = [] →
   ∃ c', play_next env guild_id c = Some (Return tt, c') ∧
         state c' = state c ∧ outputs c' = outputs c ∧
         tasks_of Inactivity (voice_manager c') !! guild_id
         = Some (next_task (evloop c)) ∧
         live_tasks (evloop c') !! next_task (evloop c)
         = Some (Inactivity, guild_id)).
Proof.
  split.
  - intros Hvc. unfold play_next.
    assert (play_next_step env guild_id c = Done (Return tt) c) as Hstep.
    { unfold play_next_step. rewrite Hvc. by destruct (queue (state c)). }
    destruct (length _); cbn [play_next_fuel]; by rewrite Hstep.
  - intros Hvc Hq. unfold play_next. rewrite Hq. cbn [length play_next_fuel].
    unfold play_next_step. rewrite Hq.
    destruct (voice_client (state c)) as [vc|]; [|done].
    eexists. split; [reflexivity|].
    unfold set_manager, start_inactivity_timer, restart_timer, create_task.
    destruct (tasks_of Inactivity (voice_manager c) !! guild_id);
      cbn; repeat split; apply lookup_insert_eq.
Qed.

Lemma play_next_idle_cases_witness :
  ∃ c', play_next Scenario.env0 7 (Scenario.cog_with [] [])
        = Some (Return tt, c') ∧
        live_tasks (evloop c') !! 0%nat = Some (Inactivity, 7%Z).
Proof.
  destruct (play_next_idle_cases Scenario.env0 7 (Scenario.cog_with [] []))
    as [_ H].
  destruct H as (c' & H1 & _ & _ & _ & H5); [discriminate | reflexivity |].
  exists c'. split; [exact H1 | exact H5].
Defined.

Lemma play_next_step_done env guild_id c c' :
  play_next_step env guild_id c = Done (Return tt) c' →
  voice_client (state c) ≠ None →
  queue (state c') = [] ∨
  ∃ src s, current_song (state c') = Some s ∧
           last_error (state c') = None ∧
           outputs c'
           = outputs c ++ [SpawnPrefetch; PlaySource src s; SendNowPlaying s].
Proof.
  unfold play_next_step.
  destruct (queue (state c)) as [|next_song rest] eqn:Hq;
    destruct (voice_client (state c)) as [vc|] eqn:Hvc; try done.
  { intros [= <-] _. left. by cbn. }
  destruct (get_audio_source _ _ _ _) as [i y].
  destruct (make_source env next_song i) as [src|e];
    [destruct (audio_url_log i) as [e|];
     [|destruct (play env next_song) as [e|];
       [|destruct (send env (SendNowPlaying next_song)) as [e|]]]|];
    try destruct (is_Exception e);
    try destruct (send env (SendCouldNotPlay next_song e));
    try destruct rest; try done; intros [= <-] _; cbn; auto.
  all: right; exists src, next_song; cbn; rewrite <- !app_assoc; auto.
Qed.

(** X15: [play_next] does not leave a connected guild stuck.  When it
    returns normally with a voice client present, either the queue has been
    drained, or a track has been handed to the voice client and announced:
    it is the current song, the last error is cleared, and the last two
    things done were [voice_client.play] and the "Now Playing" message. *)
Theorem play_next_plays_or_drains
    (env : Env) (guild_id : Z) (c c' : Cog) :
  play_next env guild_id c = Some (Return tt, c') →
  voice_client (state c) ≠ None →
  queue (state c') = [] ∨
  ∃ src s before,
    current_song (state c') = Some s ∧
    last_error (state c') = None ∧
    outputs c' = before ++ [PlaySource src s; SendNowPlaying s].
Proof.
  unfold play_next. generalize (length (queue (state c))) as fuel.
  intros fuel. revert c. induction fuel as [|fuel IH]; intros c;
    cbn [play_next_fuel];
    pose proof (play_next_step_frame env guild_id c) as Hf;
    pose proof (play_next_step_done env guild_id c) as Hd;
    destruct (play_next_step env guild_id c) as [r1 c1|c1]; try done;
    cbn zeta in Hf; destruct Hf as (Hvc & _).
  - intros [= -> ->] Hv. destruct (Hd c' eq_refl Hv) as [?|(src & s & ? & ? & Ho)];
      [by left|right].
    exists src, s, (outputs c ++ [SpawnPrefetch]).
    rewrite Ho, <- app_assoc. done.
  - intros [= -> ->] Hv. destruct (Hd c' eq_refl Hv) as [?|(src & s & ? & ? & Ho)];
      [by left|right].
    exists src, s, (outputs c ++ [SpawnPrefetch]).
    rewrite Ho, <- app_assoc. done.
  - intros Hrec Hv. apply (IH c1 Hrec). by rewrite Hvc.
Qed.

Lemma play_next_plays_or_drains_witness :
  match play_next Scenario.env0 7
          (Scenario.cog_with [Scenario.song_of "a"; Scenario.song_of "b"] [])
  with
  | Some (Return _, c') =>
      queue (state c') = [] ∨
      ∃ src s before,
        current_song (state c') = Some s ∧
        last_error (state c') = None ∧
        outputs c' = before ++ [PlaySource src s; SendNowPlaying s]
  | _ => False
  end.
Proof.
  destruct (play_next Scenario.env0 7 _) as [[[[]|e] c']|] eqn:H.
  - apply (play_next_plays_or_drains Scenario.env0 7 _ c' H). discriminate.
  - vm_compute in H. discriminate H.
  - vm_compute in H. discriminate H.
Defined.

(** X16: the download fallback cannot save a track for which
    [get_audio_source] returned [None] (extraction failed, or the key was
    in flight).  Even when the download succeeds, the log line that reads
    [info['url']] raises before [voice_client.play] is reached: the track
    is recorded as current song, nothing is played, and the caller is told
    the track could not be played. *)
Theorem play_next_download_fallback_unreachable
    (env : Env) (guild_id : Z) (c : Cog) (s : song) (vc : VoiceClient) :
  let e := OtherException "'NoneType' object is not subscriptable" in
  queue (state c) = [s] →
  voice_client (state c) = Some vc →
  fst (get_audio_source env (ytdl (state c)) (webpage_url s) 0) = Return None →
  download env (webpage_url s) = None →
  send env (SendCouldNotPlay s e) = None →
  ∃ c', play_next env guild_id c = Some (Return tt, c') ∧
        outputs c' = outputs c ++ [SpawnPrefetch; SendCouldNotPlay s e] ∧
        current_song (state c') = Some s ∧
        last_error (state c') = Some e ∧
        queue (state c') = [].
Proof.
  intros e Hq Hvc Hinfo Hdl Hsend. unfold play_next. rewrite Hq.
  cbn [length play_next_fuel]. unfold play_next_step. rewrite Hq, Hvc.
  destruct (get_audio_source _ _ _ _) as [i y]. cbn [fst] in Hinfo. subst i.
  unfold make_source, descriptor_url, audio_url_log. rewrite Hdl.
  fold e. cbn [is_Exception e]. rewrite Hsend. cbn.
  eexists. split; [reflexivity|]. cbn. by rewrite <- app_assoc.
Qed.

Lemma play_next_download_fallback_unreachable_witness :
  let env :=
    MkEnv 0 (λ _, Return None) (λ _, None) (λ _, None) (λ _, None)
          (λ _, None) false false in
  ∃ c', play_next env 7 (Scenario.cog_with [Scenario.song_of "b"] [])
        = Some (Return tt, c') ∧
        outputs c'
        = [] ++ [SpawnPrefetch;
                 SendCouldNotPlay (Scenario.song_of "b")
                   (OtherException "'NoneType' object is not subscriptable")].
Proof.
  intros env.
  destruct (play_next_download_fallback_unreachable env 7
              (Scenario.cog_with [Scenario.song_of "b"] [])
              (Scenario.song_of "b") Scenario.vc7)
    as (c' & H1 & H2 & _).
  - reflexivity.
  - reflexivity.
  - vm_compute. reflexivity.
  - reflexivity.
  - reflexivity.
  - exists c'. split; [exact H1 | exact H2].
Defined.

Lemma followup_state env c o :
  state (snd (followup env c o)) = state c.
Proof. unfold followup. by destruct (send env o). Qed.

Lemma enqueue_and_play_frame env guild_id c sg :
  ∃ r c', enqueue_and_play env guild_id c sg = Some (r, c') ∧
    processing_queue (state c') = processing_queue (state c) ∧
    processing (state c') = processing (state c) ∧
    (length (queue (state c)) ≤ Config.MAX_QUEUE_SIZE →
     length (queue (state c')) ≤ Config.MAX_QUEUE_SIZE) ∧
    ((sg = None ∨ ∃ s, sg = Some s ∧ truthy (url s) = false) →
     queue (state c') = queue (state c) ∧
     (send env FollowupNotFound = None →
      r = None ∧ outputs c' = outputs c ++ [FollowupNotFound])).
Proof.
  unfold enqueue_and_play.
  assert (∀ c0, ∃ r c', Some (followup env c0 FollowupNotFound) = Some (r, c') ∧
            processing_queue (state c') = processing_queue (state c0) ∧
            processing (state c') = processing (state c0) ∧
            (length (queue (state c0)) ≤ Config.MAX_QUEUE_SIZE →
             length (queue (state c')) ≤ Config.MAX_QUEUE_SIZE) ∧
            (queue (state c') = queue (state c0) ∧
             (send env FollowupNotFound = None →
              r = None ∧ outputs c' = outputs c0 ++ [FollowupNotFound])))
    as Hnf.
  { intros c0. pose proof (followup_state env c0 FollowupNotFound) as Hs.
    unfold followup in *. destruct (send env FollowupNotFound);
      eexists _, _; (split; [reflexivity|]); cbn in *; by rewrite ?Hs. }
  destruct sg as [s|]; [destruct (truthy (url s)) eqn:Hu|].
  - set (c2 := set_manager _ _).
    assert (processing_queue (state c2) = processing_queue (state c) ∧
            processing (state c2) = processing (state c) ∧
            queue (state c2)
            = deque_append Config.MAX_QUEUE_SIZE (queue (state c)) s)
      as (Hpq & Hp & Hq) by done.
    destruct (negb _).
    + destruct (play_next_total env guild_id c2) as [[r c3] Hplay].
      rewrite Hplay.
      apply play_next_fuel_frame in Hplay as (_ & Hpq3 & Hp3 & Hsuf & _).
      apply suffix_length in Hsuf.
      assert (length (queue (state c)) ≤ Config.MAX_QUEUE_SIZE →
              length (queue (state c3)) ≤ Config.MAX_QUEUE_SIZE) as Hlen.
      { intros Hle. rewrite Hq in Hsuf.
        pose proof (deque_append_length _ _ s Hle). lia. }
      destruct r as [[]|e].
      * pose proof (followup_state env c3 (FollowupPlaying s)) as Hs.
        destruct (followup env c3 (FollowupPlaying s)) as [r' c4].
        cbn [snd] in Hs. eexists _, _. split; [reflexivity|]. rewrite Hs.
        split; [congruence|]. split; [congruence|]. split; [done|].
        intros [?|(s' & [= <-] & ?)]; congruence.
      * eexists _, _. split; [reflexivity|].
        split; [congruence|]. split; [congruence|]. split; [done|].
        intros [?|(s' & [= <-] & ?)]; congruence.
    + pose proof (followup_state env (say c2 SpawnPrefetch) (FollowupAdded s))
        as Hs.
      destruct (followup env (say c2 SpawnPrefetch) (FollowupAdded s))
        as [r' c4]. cbn [snd] in Hs.
      eexists _, _. split; [reflexivity|]. rewrite Hs. cbn [say state].
      split; [done|]. split; [done|]. split.
      * intros Hle. rewrite Hq. by apply deque_append_length.
      * intros [?|(s' & [= <-] & ?)]; congruence.
  - destruct (Hnf c) as (r & c' & -> & H1 & H2 & H3 & H4).
    eexists _, _. split; [reflexivity|].
    split; [done|]. split; [done|]. split; [done|]. intros _. exact H4.
  - destruct (Hnf c) as (r & c' & -> & H1 & H2 & H3 & H4).
    eexists _, _. split; [reflexivity|].
    split; [done|]. split; [done|]. split; [done|]. intros _. exact H4.
Qed.

(** X17: one turn of [process_songs] always comes to an end; it takes
    exactly the request at the head of the inbound queue (or, when there is
    none, changes nothing), leaves the [processing] flag cleared whatever
    happened, and never lets the playback queue grow beyond
    [MAX_QUEUE_SIZE]. *)
Theorem process_songs_turn_bookkeeping
    (env : Env) (guild_id : Z) (c : Cog) :
  ∃ continue c',
    process_songs_turn env guild_id c = Some (continue, c') ∧
    processing_queue (state c') = drop 1 (processing_queue (state c)) ∧
    (processing_queue (state c) = [] → c' = c ∧ continue = true) ∧
    (processing_queue (state c) ≠ [] → processing (state c') = false) ∧
    (length (queue (state c)) ≤ Config.MAX_QUEUE_SIZE →
     length (queue (state c')) ≤ Config.MAX_QUEUE_SIZE).
Proof.
  unfold process_songs_turn.
  destruct (processing_queue (state c)) as [|query pq] eqn:Hpq.
  { exists true, c. rewrite Hpq. by repeat split. }
  set (c0 := set_state c _).
  destruct (search_song env (ytdl (state c0)) query _) as [r y].
  set (c1 := set_state c0 _).
  assert (processing_queue (state c1) = pq ∧
          queue (state c1) = queue (state c)) as [Hpq1 Hq1] by done.
  destruct r as [sg|e].
  - destruct (enqueue_and_play_frame env guild_id c1 sg)
      as (r & c2 & -> & Hpq2 & _ & Hlen & _).
    rewrite Hq1 in Hlen.
    destruct r as [e|].
    + destruct (is_Exception e).
      * pose proof (followup_state env c2 FollowupError) as Hs.
        destruct (followup env c2 FollowupError) as [[e'|] c3];
          cbn [snd] in Hs; eexists _, _; (split; [reflexivity|]);
          cbn; rewrite Hs; repeat split; try done; congruence.
      * eexists _, _. split; [reflexivity|]. cbn.
        repeat split; try done; congruence.
    + eexists _, _. split; [reflexivity|]. cbn.
      repeat split; try done; congruence.
  - eexists _, _. split; [reflexivity|]. cbn. repeat split; try done.
Qed.

Lemma process_songs_turn_bookkeeping_witness :
  ∃ continue c',
    process_songs_turn Scenario.env0 7
      (Scenario.cog_with Scenario.full_queue ["new"; "later"])
    = Some (continue, c') ∧
    processing_queue (state c') = ["later"] ∧
    processing (state c') = false ∧
    length (queue (state c')) ≤ Config.MAX_QUEUE_SIZE.
Proof.
  destruct (process_songs_turn_bookkeeping Scenario.env0 7
              (Scenario.cog_with Scenario.full_queue ["new"; "later"]))
    as (b & c' & H1 & H2 & _ & H4 & H5).
  exists b, c'. split; [exact H1|]. split; [exact H2|].
  split; [apply H4; discriminate|]. apply H5. vm_compute. lia.
Defined.

(** X18: a request whose search finds nothing (or finds a song without a
    stream URL) leaves the playback queue exactly as it was and is answered
    with the "could not find" message. *)
Theorem request_not_found_leaves_queue
    (env : Env) (guild_id : Z) (c : Cog) (sg : option song) :
  sg = None ∨ (∃ s, sg = Some s ∧ truthy (url s) = false) →
  send env FollowupNotFound = None →
  ∃ c', enqueue_and_play env guild_id c sg = Some (None, c') ∧
        queue (state c') = queue (state c) ∧
        outputs c' = outputs c ++ [FollowupNotFound].
Proof.
  intros Hsg Hsend.
  destruct (enqueue_and_play_frame env guild_id c sg)
    as (r & c' & H & _ & _ & _ & Hnf).
  destruct (Hnf Hsg) as [Hq Ho]. destruct (Ho Hsend) as [-> Hout].
  exists c'. by repeat split.
Qed.

Lemma request_not_found_leaves_queue_witness :
  ∃ c', enqueue_and_play Scenario.env0 7
          (Scenario.cog_with [Scenario.song_of "b"] []) None
        = Some (None, c') ∧
        queue (state c') = [Scenario.song_of "b"].
Proof.
  destruct (request_not_found_leaves_queue Scenario.env0 7
              (Scenario.cog_with [Scenario.song_of "b"] []) None)
    as (c' & H1 & H2 & _).
  - by left.
  - reflexivity.
  - exists c'. split; [exact H1 | exact H2].
Defined.

(** X19: [prefetch_next_songs] spawns prefetches only for pages of the
    first three queue entries, in queue order, and only for pages without a
    usable cache entry; it spawns one for every such page. *)
Theorem prefetch_targets (s : VoiceState) (now : Q) (page : string) :
  length (prefetch_next_songs s now) ≤ 3 ∧
  prefetch_next_songs s now `sublist_of` (webpage_url <$> take 3 (queue s)) ∧
  (page ∈ prefetch_next_songs s now ↔
   truthy (get_cached_url (ytdl s) now page) = false ∧
   page ∈ webpage_url <$> take 3 (queue s)).
Proof.
  unfold prefetch_next_songs. split; [|split].
  - rewrite length_fmap.
    etrans; [apply length_filter|]. rewrite length_take. lia.
  - apply fmap_sublist, sublist_filter.
  - rewrite !list_elem_of_fmap. split.
    + intros (sg & -> & Hin). apply list_elem_of_filter in Hin as [Hc Hin].
      split; [done|]. by exists sg.
    + intros (Hc & sg & -> & Hin). exists sg. split; [done|].
      by apply list_elem_of_filter.
Qed.

End Playback.

(** ** The download fallback *)

Section Downloader.

Import AudioDownloader.

(** X20: the call of [download_audio] that started a download never lets
    an [Exception] out, always takes the url off the active downloads, and
    returns a path exactly when the download returned a non-empty path of
    an existing file; every call that joined the same download gets the
    same answer from the future. *)
Theorem download_audio_outcome
    (active_downloads : gset string) (url : string) (res : download_result)
    (future : outcome string) :
  let r := download_audio_resume active_downloads url res in
  (url ∉ snd r) ∧
  (∀ e, fst r = Raise e → is_Exception e = false) ∧
  (∀ filepath, fst r = Return (Some filepath) ↔
               res = Return (filepath, true) ∧ filepath ≠ "") ∧
  (future_result res = Some future → download_audio_join future = fst r) ∧
  (url ∉ active_downloads →
   ∃ registered, download_audio_begin active_downloads url = Some registered ∧
                 snd (download_audio_resume registered url res)
                 = active_downloads).
Proof.
  intros r. subst r. unfold download_audio_resume. cbn [fst snd].
  split; [set_solver|]. split; [|split; [|split]].
  - intros e. destruct res as [[p ex]|e']; [by case_match|].
    destruct (is_Exception e') eqn:He; [done|]. by intros [= <-].
  - intros filepath. destruct res as [[p ex]|e'].
    + case_bool_decide as Hp; destruct ex; cbn; split;
        try (intros [= <-]; done); try (intros [[= <-] Hne]; done); try done.
    + split; [by destruct (is_Exception e')|]. by intros [[=] _].
  - unfold future_result, download_audio_join.
    destruct res as [[p ex]|e'].
    + case_match; by intros [= <-].
    + destruct e'; cbn; by intros [= <-].
  - intros Hnot. unfold download_audio_begin.
    rewrite bool_decide_eq_false_2 by done. eexists. split; [done|].
    cbn. set_solver.
Qed.

Lemma download_audio_outcome_witness :
  download_audio_join (Raise (OtherException "Download timed out"))
  = fst (download_audio_resume {[ "u" ]} "u" (Raise TimeoutError)) ∧
  ∃ registered, download_audio_begin ∅ "u" = Some registered ∧
                snd (download_audio_resume registered "u" (Raise TimeoutError))
                = ∅.
Proof.
  destruct (download_audio_outcome {[ "u" ]} "u" (Raise TimeoutError)
              (Raise (OtherException "Download timed out")))
    as (_ & _ & _ & H4 & _).
  destruct (download_audio_outcome ∅ "u" (Raise TimeoutError)
              (Raise (OtherException "Download timed out")))
    as (_ & _ & _ & _ & H5).
  split; [apply H4; reflexivity|]. apply H5.
  apply (bool_decide_unpack _). vm_compute. exact I.
Defined.



End Downloader.

(** ** The process log *)

Section ProcessLog.

Import ProcessManager.

Lemma log_line_spec log line :
  length log ≤ max_log_lines →
  log_line log line
  = drop (length (log ++ [line]) - max_log_lines) (log ++ [line]).
Proof.
  intros Hlen. unfold log_line. rewrite length_app. cbn [length].
  case_bool_decide.
  - replace (length log + 1 - max_log_lines) with 1 by lia. done.
  - replace (length log + 1 - max_log_lines) with 0 by lia. done.
Qed.

Lemma collect_output_spec lines : ∀ log,
  length log ≤ max_log_lines →
  collect_output log lines
  = drop (length (log ++ lines) - max_log_lines) (log ++ lines).
Proof.
  induction lines as [|line lines IH]; intros log Hlen.
  - cbn. rewrite app_nil_r.
    replace (length log - max_log_lines) with 0 by lia. done.
  - cbn [collect_output foldl]. fold (collect_output (log_line log line) lines).
    rewrite log_line_spec by done.
    rewrite IH.
    + rewrite length_app, length_drop, !length_app. cbn [length].
      set (d := length log + 1 - max_log_lines).
      assert (d ≤ length (log ++ [line])) as Hd
        by (rewrite length_app; cbn; lia).
      rewrite <- (drop_app_le _ lines d) by done.
      rewrite <- app_assoc. cbn [app].
      rewrite drop_drop. f_equal. lia.
    + rewrite length_drop, length_app. cbn [length]. lia.
Qed.

(** X22: the log kept for a process never holds more than
    [max_log_lines] (100) lines, and it holds the most recent ones: after
    any number of lines it is the tail of everything logged so far.  The
    status report shows at most 10 lines, the last ones the process
    printed. *)
Theorem process_log_keeps_most_recent (lines : list string) :
  length (collect_output [] lines) ≤ max_log_lines ∧
  collect_output [] lines = drop (length lines - max_log_lines) lines ∧
  length (recent_logs (Some (collect_output [] lines))) ≤ 10 ∧
  recent_logs (Some (collect_output [] lines))
  = drop (length lines - 10) lines ∧
  recent_logs None = [].
Proof.
  pose proof (collect_output_spec lines []) as H. cbn [app length] in H.
  assert (0 ≤ max_log_lines) as H0 by lia. specialize (H H0).
  rewrite H. unfold recent_logs. cbn [default from_option id].
  rewrite !length_drop, drop_drop. unfold max_log_lines.
  repeat split; try lia. f_equal. lia.
Qed.

End ProcessLog.

(** ** The [queue] and [leave] commands *)

Section Commands.

Lemma queue_items_from_spec (q : list song) : ∀ i total,
  i ≤ 9 →
  queue_items_from i total q
  = imap (λ j sg, QueueItem (S (i + j)) (title sg) (webpage_url sg))
         (take (10 - i) q) ++
    (if bool_decide (10 - i ≤ length q)
     then if bool_decide (0 < total - 10) then [MoreSongs (total - 10)] else []
     else []).
Proof.
  induction q as [|sg q IH]; intros i total Hi.
  - cbn. rewrite take_nil. cbn. rewrite bool_decide_eq_false_2 by lia. done.
  - cbn [queue_items_from length].
    replace (10 - i) with (S (9 - i)) by lia. cbn [take imap].
    rewrite Nat.add_0_r. cbn [app]. f_equal.
    case_bool_decide as H9.
    + assert (i = 9) as -> by lia. cbn [Nat.sub take imap app].
      rewrite (bool_decide_eq_true_2 (1 ≤ S (length q))) by lia. done.
    + rewrite IH by lia. replace (10 - S i) with (9 - i) by lia. f_equal.
      * apply imap_ext. intros j x _. cbn. do 2 f_equal. lia.
      * repeat case_bool_decide; try done; exfalso; lia.
Qed.

(** X23: the queue display lists the first ten queued tracks, numbered
    from 1 in queue order, followed by a line "... and n more songs"
    exactly when more than ten tracks are queued ([n] being the number not
    shown); it answers "Queue is empty" exactly when nothing is queued and
    nothing is the current song. *)
Theorem queue_display_shape (s : VoiceState) :
  queue_items (queue s)
  = imap (λ j sg, QueueItem (S j) (title sg) (webpage_url sg))
         (take 10 (queue s)) ++
    (if bool_decide (10 < length (queue s))
     then [MoreSongs (length (queue s) - 10)] else []) ∧
  length (queue_items (queue s)) ≤ 11 ∧
  (queue_command s = QueueIsEmpty ↔ queue s = [] ∧ current_song s = None).
Proof.
  assert (queue_items (queue s)
          = imap (λ j sg, QueueItem (S j) (title sg) (webpage_url sg))
                 (take 10 (queue s)) ++
            (if bool_decide (10 < length (queue s))
             then [MoreSongs (length (queue s) - 10)] else [])) as Hshape.
  { unfold queue_items. rewrite queue_items_from_spec by lia.
    cbn [Nat.sub Nat.add]. f_equal.
    repeat case_bool_decide; try done; exfalso; lia. }
  split; [exact Hshape|]. split.
  - rewrite Hshape, length_app, length_imap, length_take.
    case_bool_decide; cbn [length]; lia.
  - unfold queue_command.
    destruct (queue s), (current_song s); split; try done; by intros [? ?].
Qed.



End Commands.

(** ** The inactivity timer firing *)

Section InactivityFire.

Local Open Scope Z_scope.





End InactivityFire.
